(** * SimpleTimeSeries: moving average, seasonal factors and forecast

    A shallow embedding of [forecast.py] (class [SimpleTimeSeries]) and the
    properties of its three methods.

    Modelling choices.
    - Python numbers are exact rationals ([Qc], canonical fractions with
      Leibniz equality); integers used as sizes and indices are [Z].
      Floating-point rounding is outside the model.
    - A Python exception is a value of [exn]; a method returns
      [result A], either [Ok a] or [Raise e].  A [for] loop that appends to
      a list is [mapM], a loop that updates accumulators is [foldM]; both
      stop at the first exception, as the interpreter does.
    - Slices, negative indices, [range], [sum], [/] and [%] follow the
      Python semantics, including what they do out of range. *)

From Stdlib Require Import ZArith QArith Qcanon String Lia.
From stdpp Require Import base tactics decidable option numbers strings list list_numbers.

Local Open Scope Z_scope.

(** ** Exceptions and results *)

Inductive exn : Type :=
  | ValueError (msg : string)
  | ZeroDivisionError
  | IndexError.

Inductive result (A : Type) : Type :=
  | Ok (a : A)
  | Raise (e : exn).
Arguments Ok {A} a.
Arguments Raise {A} e.

Definition bind {A B} (m : result A) (k : A → result B) : result B :=
  match m with
  | Ok a => k a
  | Raise e => Raise e
  end.

Notation "'do' x <- m ; k" := (bind m (λ x, k))
  (at level 10, x name, m at level 100, k at level 200,
   format "'[v' 'do'  x  <-  m ; '/' k ']'").

Fixpoint mapM {A B} (f : A → result B) (l : list A) : result (list B) :=
  match l with
  | [] => Ok []
  | x :: l =>
      do y <- f x;
      do ys <- mapM f l;
      Ok (y :: ys)
  end.

Fixpoint foldM {A B} (f : B → A → result B) (b : B) (l : list A) : result B :=
  match l with
  | [] => Ok b
  | x :: l =>
      do b' <- f b x;
      foldM f b' l
  end.

Global Instance exn_eq_dec : EqDecision exn.
Proof. solve_decision. Defined.

Global Instance result_eq_dec `{EqDecision A} : EqDecision (result A).
Proof. solve_decision. Defined.

(** [no_value_error r]: [r] is a value, or an exception other than
    [ValueError]. *)
Definition is_value_error (e : exn) : bool :=
  match e with ValueError _ => true | _ => false end.

Definition no_value_error {A} (r : result A) : Prop :=
  match r with Ok _ => True | Raise e => is_value_error e = false end.

(** ** Python primitives *)

Definition py_len {A} (l : list A) : Z := Z.of_nat (length l).

(** [range(n)]: empty when [n <= 0]. *)
Definition py_range (n : Z) : list Z := seqZ 0 n.

(** [sum(l)]: a left fold from [0]. *)
Definition py_sum (l : list Qc) : Qc := foldl Qcplus 0%Qc l.

(** [x / y] on numbers. *)
Definition py_div (x y : Qc) : result Qc :=
  if decide (y = 0%Qc) then Raise ZeroDivisionError else Ok (x / y)%Qc.

(** [a % b] on integers; [Z.modulo] has the sign of the divisor, as in
    Python. *)
Definition py_mod (a b : Z) : result Z :=
  if decide (b = 0) then Raise ZeroDivisionError else Ok (a `mod` b).

(** A slice bound [i] of a sequence of length [n] (step 1): a negative bound
    counts from the end, and every bound is clamped into [0..n]. *)
Definition slice_bound (n i : Z) : Z :=
  if decide (i < 0) then Z.max 0 (i + n) else Z.min i n.

(** [l[start:stop]] *)
Definition py_slice {A} (l : list A) (start stop : Z) : list A :=
  let lo := slice_bound (py_len l) start in
  let hi := slice_bound (py_len l) stop in
  take (Z.to_nat (hi - lo)) (drop (Z.to_nat lo) l).

(** [l[start:]] *)
Definition py_slice_from {A} (l : list A) (start : Z) : list A :=
  drop (Z.to_nat (slice_bound (py_len l) start)) l.

(** The position an index [k] denotes in a sequence of length [n]. *)
Definition py_index (n k : Z) : result nat :=
  if decide (0 ≤ k < n) then Ok (Z.to_nat k)
  else if decide (- n ≤ k < 0) then Ok (Z.to_nat (k + n))
  else Raise IndexError.

(** [l[k]] *)
Definition py_getitem {A} (l : list A) (k : Z) : result A :=
  do i <- py_index (py_len l) k;
  match l !! i with
  | Some x => Ok x
  | None => Raise IndexError
  end.

(** [enumerate(l)], counting from [i]. *)
Fixpoint enumerate_from {A} (i : Z) (l : list A) : list (Z * A) :=
  match l with
  | [] => []
  | x :: l => (i, x) :: enumerate_from (i + 1) l
  end.

Definition enumerate {A} (l : list A) : list (Z * A) := enumerate_from 0 l.

(** ** The class *)

Record SimpleTimeSeries : Type := {
  data : list Qc;
  seasonal_period : Z
}.

(** [__init__]: the period defaults to monthly seasonality. *)
Definition init (d : list Qc) : SimpleTimeSeries :=
  {| data := d; seasonal_period := 12 |}.

Definition calculate_moving_average (self : SimpleTimeSeries)
    (window_size : Z) : result (list Qc) :=
  mapM (λ i,
          let window := py_slice (data self) i (i + window_size) in
          py_div (py_sum window) (Qc_of_Z window_size))
       (py_range (py_len (data self) - window_size + 1)).

(** The body of the loop of [calculate_seasonal_factors]. *)
Definition accumulate (s : Z) (acc : list Qc * list Z) (iv : Z * Qc)
    : result (list Qc * list Z) :=
  let '(seasonal_averages, seasonal_counts) := acc in
  let '(i, value) := iv in
  do season_index <- py_mod i s;
  do ka <- py_index (py_len seasonal_averages) season_index;
  let seasonal_averages := alter (λ a, a + value)%Qc ka seasonal_averages in
  do kc <- py_index (py_len seasonal_counts) season_index;
  let seasonal_counts := alter (λ c, c + 1) kc seasonal_counts in
  Ok (seasonal_averages, seasonal_counts).

(** [avg / count if count > 0 else 1] *)
Definition raw_factor (ac : Qc * Z) : result Qc :=
  let '(avg, count) := ac in
  if decide (count > 0) then py_div avg (Qc_of_Z count) else Ok 1%Qc.

(** [calculate_seasonal_factors] up to the comment "Normalize factors":
    the seasonal factors before normalisation. *)
Definition raw_seasonal_factors (self : SimpleTimeSeries) : result (list Qc) :=
  let s := seasonal_period self in
  let seasonal_averages := replicate (Z.to_nat s) 0%Qc in
  let seasonal_counts := replicate (Z.to_nat s) 0 in
  do acc <- foldM (accumulate s) (seasonal_averages, seasonal_counts)
                  (enumerate (data self));
  mapM raw_factor (zip acc.1 acc.2).

(** The two lines after the comment "Normalize factors". *)
Definition normalize (seasonal_factors : list Qc) : result (list Qc) :=
  do factor_mean <- py_div (py_sum seasonal_factors)
                           (Qc_of_Z (py_len seasonal_factors));
  mapM (λ f, py_div f factor_mean) seasonal_factors.

Definition calculate_seasonal_factors (self : SimpleTimeSeries)
    : result (list Qc) :=
  do seasonal_factors <- raw_seasonal_factors self;
  normalize seasonal_factors.

Definition not_enough : string := "Not enough historical data for forecasting".

Definition forecast_next_periods (self : SimpleTimeSeries) (periods : Z)
    : result (list Qc) :=
  let s := seasonal_period self in
  if decide (py_len (data self) < s * 2) then Raise (ValueError not_enough)
  else
    do ma <- calculate_moving_average self s;
    do ma_last <- py_getitem ma (-1);
    do ma_first <- py_getitem ma 0;
    do trend_change <- py_div (ma_last - ma_first)%Qc (Qc_of_Z (py_len ma));
    do seasonal_factors <- calculate_seasonal_factors self;
    do last_level <- py_div (py_sum (py_slice_from (data self) (- s)))
                            (Qc_of_Z s);
    mapM (λ i,
            let trend := (last_level + trend_change * Qc_of_Z (i + 1))%Qc in
            do season_index <- py_mod (py_len (data self) + i) s;
            do seasonal <- py_getitem seasonal_factors season_index;
            Ok (trend * seasonal)%Qc)
         (py_range periods).

(** The series of [main]. *)
Definition historical_data : list Qc :=
  Qc_of_Z <$> [100; 120; 140; 160; 130; 110;
               105; 125; 145; 165; 135; 115;
               110; 130; 150; 170; 140; 120].

(** ** Reference definitions, in the words of the specification *)

(** The sum of a sequence, element by element. *)
Definition total (l : list Qc) : Qc := foldr Qcplus 0%Qc l.

(** The arithmetic mean: the sum over the number of elements. *)
Definition mean (l : list Qc) : Qc := (total l / Qc_of_Z (py_len l))%Qc.

(** The observations at indices [i .. i+w-1]. *)
Definition observations (d : list Qc) (i w : nat) : list Qc :=
  (λ j, nth j d 0%Qc) <$> seq i w.

(** The observations whose index, counted from [i], is at cycle position
    [k]. *)
Fixpoint obs_at (s k i : Z) (l : list Qc) : list Qc :=
  match l with
  | [] => []
  | x :: l =>
      if decide (i `mod` s = k) then x :: obs_at s k (i + 1) l
      else obs_at s k (i + 1) l
  end.

(** The raw seasonal factor of cycle position [k]: the average of the
    observations at that position, and 1 where there is none. *)
Definition position_factor (s : Z) (d : list Qc) (k : Z) : Qc :=
  let obs := obs_at s k 0 d in
  if decide (obs = []) then 1%Qc else mean obs.

(** [m] repetitions of the cycle [p], one after the other. *)
Fixpoint cycles (m : nat) (p : list Qc) : list Qc :=
  match m with
  | O => []
  | S m => p ++ cycles m p
  end.

(** [main]: what the script prints, line by line, or the exception it ends
    with.  The formatted line [f"Period {n}: {value:.2f}"] is a parameter. *)
Section Main.
Variable period_line : Z → Qc → string.

(** The line feed that opens the two headings. *)
Definition nl : string := String (Ascii.ascii_of_nat 10) EmptyString.

Definition main : result (list string) :=
  let ts := init historical_data in
  do forecast <- forecast_next_periods ts 6;
  Ok ([(nl +:+ "Historical Data:")%string]
      ++ ((λ iv, period_line (iv.1 + 1) iv.2) <$> enumerate historical_data)
      ++ [(nl +:+ "Forecast:")%string]
      ++ ((λ iv, period_line (py_len historical_data + iv.1 + 1) iv.2)
            <$> enumerate forecast)).
End Main.

(** * Properties *)

(** ** The result monad *)

Section Monad.
Context {A B : Type}.
Implicit Types (f : A → result B) (l : list A).

Lemma mapM_pure f (g : A → B) l :
  (∀ x, x ∈ l → f x = Ok (g x)) → mapM f l = Ok (g <$> l).
Proof.
  induction l as [|x l IH]; intros Hf; simpl; [done|].
  rewrite Hf by left. simpl.
  rewrite IH; [done|]. intros y Hy. apply Hf. by right.
Qed.

Lemma mapM_raise f l1 x l2 e :
  (∀ y, y ∈ l1 → ∃ b, f y = Ok b) → f x = Raise e →
  mapM f (l1 ++ x :: l2) = Raise e.
Proof.
  intros Hl1 Hx. induction l1 as [|y l1 IH]; simpl.
  - by rewrite Hx.
  - destruct (Hl1 y) as [b ->]; [by left|]. simpl.
    rewrite IH; [done|]. intros z Hz. apply Hl1. by right.
Qed.

Lemma mapM_lookup f l (l' : list B) :
  length l' = length l →
  (∀ k x, l !! k = Some x → ∃ y, l' !! k = Some y ∧ f x = Ok y) →
  mapM f l = Ok l'.
Proof.
  revert l'. induction l as [|x l IH]; intros [|y l'] Hlen Hk;
    simpl in *; try done.
  destruct (Hk 0%nat x) as (y' & [= <-] & ->); [done|]. simpl.
  rewrite (IH l'); [done|lia|]. intros k z Hz. apply (Hk (S k) z Hz).
Qed.

Lemma mapM_length f l (l' : list B) : mapM f l = Ok l' → length l' = length l.
Proof.
  revert l'. induction l as [|x l IH]; intros l'; simpl.
  - by intros [= <-].
  - destruct (f x); simpl; [|done]. destruct (mapM f l); simpl; [|done].
    intros [= <-]. simpl. f_equal. by apply IH.
Qed.

Lemma mapM_no_value_error f l :
  (∀ x, no_value_error (f x)) → no_value_error (mapM f l).
Proof.
  intros Hf. induction l as [|x l IH]; simpl; [done|].
  specialize (Hf x). destruct (f x); simpl; [|done].
  destruct (mapM f l); simpl in *; done.
Qed.

Lemma foldM_no_value_error (h : B → A → result B) b l :
  (∀ b x, no_value_error (h b x)) → no_value_error (foldM h b l).
Proof.
  intros Hh. revert b. induction l as [|x l IH]; intros b; simpl; [done|].
  specialize (Hh b x). destruct (h b x); simpl; [apply IH|done].
Qed.
End Monad.

Lemma bind_no_value_error {A B} (m : result A) (k : A → result B) :
  no_value_error m → (∀ a, no_value_error (k a)) → no_value_error (bind m k).
Proof. destruct m; simpl; auto. Qed.

(** Closed equations between results are settled by evaluation. *)
Ltac by_compute := apply (bool_decide_unpack _); vm_compute; exact I.

(** ** Primitives *)

Lemma py_div_ok x y : y ≠ 0%Qc → py_div x y = Ok (x / y)%Qc.
Proof. intros. unfold py_div. by case_decide. Qed.

Lemma py_div_zero x : py_div x 0%Qc = Raise ZeroDivisionError.
Proof. unfold py_div. by case_decide. Qed.

Lemma py_div_no_value_error x y : no_value_error (py_div x y).
Proof. unfold py_div. by case_decide. Qed.

Lemma py_mod_no_value_error a b : no_value_error (py_mod a b).
Proof. unfold py_mod. by case_decide. Qed.

Lemma py_index_no_value_error n k : no_value_error (py_index n k).
Proof. unfold py_index. by repeat case_decide. Qed.

Lemma py_getitem_no_value_error {A} (l : list A) k :
  no_value_error (py_getitem l k).
Proof.
  unfold py_getitem. apply bind_no_value_error.
  - apply py_index_no_value_error.
  - intros i. by destruct (l !! i).
Qed.

Lemma Qc_of_Z_eq_0 n : Qc_of_Z n = 0%Qc ↔ n = 0.
Proof. by rewrite <-Z2Qc_inj_0, Z2Qc_inj_iff. Qed.

Lemma Qc_of_Z_ne_0 n : n ≠ 0 → Qc_of_Z n ≠ 0%Qc.
Proof. by rewrite Qc_of_Z_eq_0. Qed.

Lemma py_range_nonpos n : n ≤ 0 → py_range n = [].
Proof.
  intros. unfold py_range, seqZ. by replace (Z.to_nat n) with 0%nat by lia.
Qed.

Lemma py_range_pos n : 0 < n → py_range n = 0 :: seqZ 1 (n - 1).
Proof.
  intros. unfold py_range. rewrite seqZ_cons by lia. do 2 f_equal; lia.
Qed.

Lemma foldl_Qcplus a l : foldl Qcplus a l = (a + total l)%Qc.
Proof.
  revert a. induction l as [|x l IH]; intros a; simpl.
  - by rewrite Qcplus_0_r.
  - by rewrite IH, Qcplus_assoc.
Qed.

Lemma py_sum_total l : py_sum l = total l.
Proof. unfold py_sum. by rewrite foldl_Qcplus, Qcplus_0_l. Qed.

Lemma observations_length d i w : length (observations d i w) = w.
Proof. unfold observations. by rewrite length_fmap, length_seq. Qed.

Lemma take_drop_observations d (i w : nat) :
  (i + w ≤ length d)%nat → take w (drop i d) = observations d i w.
Proof.
  intros Hle. apply list_eq. intros j. unfold observations.
  rewrite list_lookup_fmap.
  destruct (decide (j < w)%nat) as [Hj|Hj].
  - rewrite lookup_take_lt, lookup_drop, lookup_seq_lt by done. simpl.
    rewrite nth_lookup.
    destruct (lookup_lt_is_Some_2 d (i + j)) as [x ->]; [lia|done].
  - rewrite lookup_take_ge, lookup_seq_ge by lia. done.
Qed.

Lemma py_slice_window d (i w : Z) :
  0 ≤ i → 1 ≤ w → i + w ≤ py_len d →
  py_slice d i (i + w) = observations d (Z.to_nat i) (Z.to_nat w).
Proof.
  intros Hi Hw Hle. unfold py_slice, slice_bound, py_len in *.
  repeat case_decide; try lia.
  rewrite <-take_drop_observations by lia.
  do 2 f_equal; lia.
Qed.

(** ** calculate_moving_average *)

Lemma moving_average_oversized_window_aux (self : SimpleTimeSeries) (w : Z) :
  py_len (data self) < w → calculate_moving_average self w = Ok [].
Proof.
  intros Hw. unfold calculate_moving_average.
  by rewrite py_range_nonpos by lia.
Qed.

(** C10. For every window size [w] greater than the length [N] of the
    series, [calculate_moving_average(w)] returns the empty sequence: the
    range of starting indices is empty and nothing is raised. *)
Theorem moving_average_oversized_window (self : SimpleTimeSeries) (w : Z) :
  py_len (data self) < w → calculate_moving_average self w = Ok [].
Proof.
  intros Hw. unfold calculate_moving_average.
  by rewrite py_range_nonpos by lia.
Qed.

Lemma moving_average_oversized_window_witness :
  calculate_moving_average (init (Qc_of_Z <$> [3; 5])) 3 = Ok [].
Proof. apply moving_average_oversized_window. vm_compute. reflexivity. Defined.

(** With a non-zero window the division of the loop body cannot fail, so
    the method is a plain map over the starting indices. *)
Lemma moving_average_nonzero_window (self : SimpleTimeSeries) (w : Z) :
  w ≠ 0 →
  calculate_moving_average self w =
    Ok ((λ i, py_sum (py_slice (data self) i (i + w)) / Qc_of_Z w)%Qc
          <$> py_range (py_len (data self) - w + 1)).
Proof.
  intros Hw. unfold calculate_moving_average. apply mapM_pure.
  intros i _. simpl. by rewrite py_div_ok by by apply Qc_of_Z_ne_0.
Qed.

Lemma moving_average_zero_window (self : SimpleTimeSeries) :
  calculate_moving_average self 0 = Raise ZeroDivisionError.
Proof.
  unfold calculate_moving_average.
  rewrite py_range_pos by (unfold py_len; lia).
  apply (mapM_raise _ []); [by intros ? ?%elem_of_nil|].
  simpl. by rewrite Z2Qc_inj_0, py_div_zero.
Qed.

(** C6, as the code has it. The method has no check of its window: for a
    window greater than the length of the series it returns the empty
    sequence; it raises only for the window 0, and then a
    [ZeroDivisionError]; for a negative window it returns a sequence of
    [N - w + 1] values. *)
Theorem moving_average_window_failure (self : SimpleTimeSeries) (w : Z) :
  (py_len (data self) < w → calculate_moving_average self w = Ok []) ∧
  ((∃ e, calculate_moving_average self w = Raise e) ↔ w = 0) ∧
  (w = 0 → calculate_moving_average self w = Raise ZeroDivisionError) ∧
  (w < 0 → ∃ ma, calculate_moving_average self w = Ok ma ∧
               py_len ma = py_len (data self) - w + 1).
Proof.
  split_and!.
  - intros Hw. unfold calculate_moving_average.
    by rewrite py_range_nonpos by lia.
  - split.
    + intros [e He]. destruct (decide (w = 0)) as [|Hw]; [done|].
      by rewrite moving_average_nonzero_window in He.
    + intros ->. eexists. apply moving_average_zero_window.
  - intros ->. apply moving_average_zero_window.
  - intros Hw. eexists. split; [apply moving_average_nonzero_window; lia|].
    unfold py_len, py_range. rewrite length_fmap, length_seqZ. lia.
Qed.

(** The claim as written fails: an oversized window is not an error. *)
Lemma moving_average_no_invalid_window :
  let self := init (Qc_of_Z <$> [3; 5]) in
  py_len (data self) < 3 ∧
  ¬ (∃ e, calculate_moving_average self 3 = Raise e).
Proof.
  split; [vm_compute; reflexivity|].
  intros [e He]. vm_compute in He. discriminate.
Qed.

(** And neither is a negative one. *)
Example moving_average_negative_window :
  calculate_moving_average (init (Qc_of_Z <$> [3; 5])) (-1) =
    Ok (Qc_of_Z <$> [-3; 0; 0; 0]).
Proof. by_compute. Qed.

(** C3. For a window [w] with [1 <= w <= N] the method returns a sequence of
    exactly [N - w + 1] elements, and its element [i] is the arithmetic mean
    of the observations at indices [i .. i+w-1]. *)
Theorem moving_average_spec (self : SimpleTimeSeries) (w : Z) :
  1 ≤ w ≤ py_len (data self) →
  ∃ ma, calculate_moving_average self w = Ok ma ∧
        py_len ma = py_len (data self) - w + 1 ∧
        ∀ i, 0 ≤ i < py_len (data self) - w + 1 →
             ma !! Z.to_nat i =
               Some (mean (observations (data self) (Z.to_nat i) (Z.to_nat w))).
Proof.
  intros Hw. eexists. split_and!.
  - apply moving_average_nonzero_window. lia.
  - unfold py_len, py_range in *. rewrite length_fmap, length_seqZ. lia.
  - intros i Hi. rewrite list_lookup_fmap. unfold py_range.
    rewrite (lookup_seqZ_lt _ _ (Z.to_nat i)) by lia. simpl.
    replace (0 + Z.of_nat (Z.to_nat i)) with i by lia.
    rewrite py_slice_window by lia.
    unfold mean, py_len. rewrite py_sum_total, observations_length.
    do 3 f_equal. lia.
Qed.

Lemma moving_average_spec_witness :
  ∃ ma, calculate_moving_average (init (Qc_of_Z <$> [3; 5; 10])) 2 = Ok ma ∧
        py_len ma = 2 ∧ ma !! 1%nat = Some (mean (Qc_of_Z <$> [5; 10])).
Proof.
  destruct (moving_average_spec (init (Qc_of_Z <$> [3; 5; 10])) 2)
    as (ma & Hma & Hlen & Hnth); [vm_compute; split; discriminate|].
  exists ma. split_and!; [done|done|]. apply (Hnth 1). vm_compute. done.
Defined.

Lemma moving_average_window_failure_witness :
  calculate_moving_average (init (Qc_of_Z <$> [3; 5])) 3 = Ok [] ∧
  calculate_moving_average (init (Qc_of_Z <$> [3; 5])) 0 =
    Raise ZeroDivisionError.
Proof.
  pose proof (moving_average_window_failure (init (Qc_of_Z <$> [3; 5])) 3)
    as (H3 & _).
  pose proof (moving_average_window_failure (init (Qc_of_Z <$> [3; 5])) 0)
    as (_ & _ & H0 & _).
  split; [apply H3; vm_compute; reflexivity | apply H0; reflexivity].
Defined.

(** ** calculate_seasonal_factors: the accumulation loop *)

Lemma accumulate_step s avgs counts i v :
  1 ≤ s → py_len avgs = s → py_len counts = s →
  accumulate s (avgs, counts) (i, v) =
    Ok (alter (λ a, a + v)%Qc (Z.to_nat (i `mod` s)) avgs,
        alter (λ c, c + 1) (Z.to_nat (i `mod` s)) counts).
Proof.
  intros Hs Ha Hc. unfold accumulate, py_mod.
  case_decide; [lia|]. simpl.
  pose proof (Z.mod_pos_bound i s ltac:(lia)).
  unfold py_index. rewrite Ha, Hc. case_decide; [|lia]. simpl. done.
Qed.

(** After the loop, slot [k] has gained the sum, respectively the number, of
    the observations at cycle position [k]. *)
Lemma accumulate_loop s l :
  1 ≤ s → ∀ i avgs counts,
  py_len avgs = s → py_len counts = s →
  ∃ avgs' counts',
    foldM (accumulate s) (avgs, counts) (enumerate_from i l)
      = Ok (avgs', counts') ∧
    length avgs' = length avgs ∧ length counts' = length counts ∧
    ∀ k : nat,
      avgs' !! k
        = (λ a, a + total (obs_at s (Z.of_nat k) i l))%Qc <$> avgs !! k ∧
      counts' !! k
        = (λ c, c + py_len (obs_at s (Z.of_nat k) i l)) <$> counts !! k.
Proof.
  intros Hs. induction l as [|x l IH]; intros i avgs counts Ha Hc.
  - exists avgs, counts. split_and!; try done. intros k. simpl. split.
    + destruct (avgs !! k); simpl; [|done]. f_equal. ring.
    + destruct (counts !! k); simpl; [|done]. f_equal. unfold py_len. simpl. lia.
  - cbn [enumerate_from foldM]. rewrite accumulate_step by done.
    cbn [bind].
    destruct (IH (i + 1) (alter (λ a, a + x)%Qc (Z.to_nat (i `mod` s)) avgs)
                 (alter (λ c, c + 1) (Z.to_nat (i `mod` s)) counts))
      as (avgs' & counts' & -> & Hla & Hlc & Hk).
    { unfold py_len in *. by rewrite length_alter. }
    { unfold py_len in *. by rewrite length_alter. }
    exists avgs', counts'. rewrite length_alter in Hla. rewrite length_alter in Hlc.
    split_and!; try done. intros k. destruct (Hk k) as [-> ->].
    pose proof (Z.mod_pos_bound i s ltac:(lia)).
    destruct (decide (k = Z.to_nat (i `mod` s))) as [->|Hne].
    + rewrite !list_lookup_alter_eq. cbn [obs_at]. case_decide; [|lia]. split.
      * destruct (avgs !! _); simpl; [|done]. f_equal. ring.
      * destruct (counts !! _); simpl; [|done]. f_equal.
        unfold py_len. simpl length. lia.
    + rewrite !list_lookup_alter_ne by done. cbn [obs_at].
      case_decide; [lia|]. done.
Qed.

(** ** calculate_seasonal_factors: the raw factors *)

Lemma obs_at_nil_length s k i l : obs_at s k i l = [] ↔ py_len (obs_at s k i l) = 0.
Proof. unfold py_len. destruct (obs_at s k i l); simpl; split; (done || lia). Qed.

Lemma raw_factor_position s d k :
  raw_factor ((0 + total (obs_at s k 0 d))%Qc, 0 + py_len (obs_at s k 0 d))
    = Ok (position_factor s d k).
Proof.
  unfold raw_factor, position_factor, mean.
  destruct (obs_at s k 0 d) as [|x obs] eqn:Hobs; [done|].
  cbn [total foldr].
  rewrite decide_True by (unfold py_len; simpl; lia).
  rewrite py_div_ok by (apply Qc_of_Z_ne_0; unfold py_len; simpl; lia).
  rewrite decide_False by done. by rewrite Qcplus_0_l.
Qed.

(** For a period of at least 1 the first half of the method never raises:
    it yields the raw factor of every cycle position [0 .. s-1]. *)
Lemma raw_seasonal_factors_spec (self : SimpleTimeSeries) :
  1 ≤ seasonal_period self →
  raw_seasonal_factors self =
    Ok (position_factor (seasonal_period self) (data self)
          <$> seqZ 0 (seasonal_period self)).
Proof.
  intros Hs. unfold raw_seasonal_factors, enumerate.
  destruct (accumulate_loop (seasonal_period self) (data self) Hs 0
              (replicate (Z.to_nat (seasonal_period self)) 0%Qc)
              (replicate (Z.to_nat (seasonal_period self)) 0))
    as (avgs & counts & -> & Hla & Hlc & Hk).
  { unfold py_len. rewrite length_replicate. lia. }
  { unfold py_len. rewrite length_replicate. lia. }
  rewrite length_replicate in Hla. rewrite length_replicate in Hlc.
  cbn [bind fst snd].
  apply mapM_lookup.
  - rewrite length_fmap, length_seqZ, length_zip. lia.
  - intros k [a c] [Ha Hc]%lookup_zip_Some.
    assert (k < Z.to_nat (seasonal_period self))%nat as Hlt.
    { rewrite <-Hla. by eapply lookup_lt_Some. }
    destruct (Hk k) as [Hka Hkc].
    rewrite Ha, lookup_replicate_2 in Hka by done.
    rewrite Hc, lookup_replicate_2 in Hkc by done.
    simpl in Hka, Hkc. injection Hka as ->. injection Hkc as ->.
    eexists. split; [|apply raw_factor_position].
    rewrite list_lookup_fmap, (lookup_seqZ_lt _ _ k) by lia. done.
Qed.

Lemma obs_at_nil s k l :
  ∀ i, (∀ j, i ≤ j < i + py_len l → j `mod` s ≠ k) → obs_at s k i l = [].
Proof.
  induction l as [|x l IH]; intros i Hj; simpl; [done|].
  unfold py_len in *. simpl length in Hj.
  rewrite decide_False by (apply Hj; lia).
  apply IH. intros j ?. apply Hj. lia.
Qed.

Lemma obs_at_cons s k l :
  ∀ i j, i ≤ j < i + py_len l → j `mod` s = k → obs_at s k i l ≠ [].
Proof.
  induction l as [|x l IH]; intros i j Hj Hk; unfold py_len in *;
    simpl in *; [lia|].
  case_decide; [done|]. apply (IH (i + 1) j); [|done].
  assert (i ≠ j) by congruence. lia.
Qed.

Lemma obs_at_elem_of s k l x : ∀ i, x ∈ obs_at s k i l → x ∈ l.
Proof.
  induction l as [|y l IH]; intros i; simpl; [done|].
  case_decide.
  - intros [->|?]%elem_of_cons; [left|right; eauto].
  - right; eauto.
Qed.

(** C9. A cycle position [k] that no observation falls on gets the raw
    factor 1, and computing the raw factors raises nothing. *)
Theorem raw_factor_unobserved_position (self : SimpleTimeSeries) (k : Z) :
  0 ≤ k < seasonal_period self →
  (∀ i, 0 ≤ i < py_len (data self) → i `mod` seasonal_period self ≠ k) →
  ∃ raw, raw_seasonal_factors self = Ok raw ∧
         raw !! Z.to_nat k = Some 1%Qc.
Proof.
  intros Hk Hno. eexists. split; [apply raw_seasonal_factors_spec; lia|].
  rewrite list_lookup_fmap, (lookup_seqZ_lt _ _ (Z.to_nat k)) by lia.
  simpl. unfold position_factor.
  rewrite Z2Nat.id, obs_at_nil by (done || lia). done.
Qed.

Lemma raw_factor_unobserved_position_witness :
  ∃ raw,
    raw_seasonal_factors
      {| data := Qc_of_Z <$> [4; 6]; seasonal_period := 3 |} = Ok raw ∧
    raw !! 2%nat = Some 1%Qc.
Proof.
  apply (raw_factor_unobserved_position
           {| data := Qc_of_Z <$> [4; 6]; seasonal_period := 3 |} 2).
  - simpl. lia.
  - intros i Hi. unfold py_len in Hi. simpl in Hi.
    assert (i = 0 ∨ i = 1) as [-> | ->] by lia; vm_compute; discriminate.
Defined.

(** ** calculate_seasonal_factors: normalisation *)

Lemma Qcdiv_0_r x : (x / 0 = 0)%Qc.
Proof. unfold Qcdiv. change (/ 0)%Qc with 0%Qc. ring. Qed.

Lemma mean_ne_0 l : mean l ≠ 0%Qc → total l ≠ 0%Qc ∧ Qc_of_Z (py_len l) ≠ 0%Qc.
Proof.
  unfold mean. intros Hm. split; intros Heq; apply Hm; rewrite Heq.
  - unfold Qcdiv. ring.
  - apply Qcdiv_0_r.
Qed.

Lemma total_cons x l : total (x :: l) = (x + total l)%Qc.
Proof. done. Qed.

Lemma total_scale m l : total ((λ f, f / m)%Qc <$> l) = (total l / m)%Qc.
Proof.
  induction l as [|x l IH].
  - simpl. unfold Qcdiv. ring.
  - rewrite fmap_cons, !total_cons, IH. unfold Qcdiv. ring.
Qed.

Lemma normalize_ok raw :
  mean raw ≠ 0%Qc → normalize raw = Ok ((λ f, f / mean raw)%Qc <$> raw).
Proof.
  intros Hm. destruct (mean_ne_0 raw Hm) as [_ Hn]. unfold normalize.
  rewrite py_div_ok, py_sum_total by done. cbn [bind]. fold (mean raw).
  apply mapM_pure. intros f _. by apply py_div_ok.
Qed.

Lemma normalize_zero raw :
  mean raw = 0%Qc → normalize raw = Raise ZeroDivisionError.
Proof.
  intros Hm. unfold normalize.
  destruct (decide (Qc_of_Z (py_len raw) = 0%Qc)) as [->|Hn].
  - by rewrite py_div_zero.
  - rewrite py_div_ok, py_sum_total by done. cbn [bind]. fold (mean raw).
    rewrite Hm. destruct raw as [|f raw]; [destruct Hn; apply Z2Qc_inj_0|].
    cbn [mapM]. by rewrite py_div_zero.
Qed.

Lemma mean_normalized raw :
  mean raw ≠ 0%Qc → mean ((λ f, f / mean raw)%Qc <$> raw) = 1%Qc.
Proof.
  intros Hm. destruct (mean_ne_0 raw Hm) as [Ht Hn].
  unfold mean at 1. rewrite total_scale. unfold py_len.
  rewrite length_fmap. fold (py_len raw). unfold mean.
  field. done.
Qed.

(** The method as a whole, for a period of at least 1: it raises exactly
    when the raw factors average to zero. *)
Lemma calculate_seasonal_factors_spec (self : SimpleTimeSeries) :
  1 ≤ seasonal_period self →
  let raw := position_factor (seasonal_period self) (data self)
               <$> seqZ 0 (seasonal_period self) in
  calculate_seasonal_factors self =
    if decide (mean raw = 0%Qc) then Raise ZeroDivisionError
    else Ok ((λ f, f / mean raw)%Qc <$> raw).
Proof.
  intros Hs raw. unfold calculate_seasonal_factors.
  rewrite raw_seasonal_factors_spec by done. cbn [bind]. fold raw.
  case_decide; [by apply normalize_zero | by apply normalize_ok].
Qed.

(** C4, as the code has it. When the raw seasonal factors do not average
    to zero, the method returns a vector of exactly [s] factors whose
    arithmetic mean is 1. *)
Theorem seasonal_factors_mean_one (self : SimpleTimeSeries) (raw : list Qc) :
  1 ≤ seasonal_period self →
  raw_seasonal_factors self = Ok raw →
  mean raw ≠ 0%Qc →
  ∃ factors, calculate_seasonal_factors self = Ok factors ∧
             py_len factors = seasonal_period self ∧
             mean factors = 1%Qc.
Proof.
  intros Hs Hraw Hm. unfold calculate_seasonal_factors.
  rewrite Hraw. cbn [bind]. rewrite normalize_ok by done.
  eexists. split_and!; [done| |by apply mean_normalized].
  rewrite raw_seasonal_factors_spec in Hraw by done.
  injection Hraw as <-. unfold py_len.
  rewrite !length_fmap, length_seqZ. lia.
Qed.

Lemma seasonal_factors_mean_one_witness :
  ∃ factors,
    calculate_seasonal_factors
      {| data := Qc_of_Z <$> [1; 3; 5]; seasonal_period := 2 |} = Ok factors ∧
    py_len factors = 2 ∧ mean factors = 1%Qc.
Proof.
  apply (seasonal_factors_mean_one
           {| data := Qc_of_Z <$> [1; 3; 5]; seasonal_period := 2 |}
           (Qc_of_Z <$> [3; 3])).
  - simpl. lia.
  - by_compute.
  - intros H. apply (bool_decide_pack _) in H. vm_compute in H. exact H.
Defined.

(** The raw factors 1 and -1 are not all zero, yet they average to zero and
    the normalisation divides by that average. *)
Lemma seasonal_factors_cancelling :
  let self := {| data := Qc_of_Z <$> [1; -1]; seasonal_period := 2 |} in
  raw_seasonal_factors self = Ok (Qc_of_Z <$> [1; -1]) ∧
  Qc_of_Z 1 ≠ 0%Qc ∧
  calculate_seasonal_factors self = Raise ZeroDivisionError.
Proof.
  split_and!; [by_compute| |by_compute].
  intros H. apply (bool_decide_pack _) in H. vm_compute in H. exact H.
Qed.

(** C5. On a series of 24 zeros with the period 12 every raw factor is 0 and
    the method raises [ZeroDivisionError] where the claim promises factors
    all equal to 1. *)
Theorem seasonal_factors_all_zero :
  let self := init (replicate 24 0%Qc) in
  raw_seasonal_factors self = Ok (replicate 12 0%Qc) ∧
  calculate_seasonal_factors self = Raise ZeroDivisionError.
Proof. split; by_compute. Qed.

(** The same for every series: raw factors that are all zero make the
    method raise. *)
Lemma seasonal_factors_degenerate (self : SimpleTimeSeries) (raw : list Qc) :
  raw_seasonal_factors self = Ok raw →
  Forall (λ f, f = 0%Qc) raw →
  calculate_seasonal_factors self = Raise ZeroDivisionError.
Proof.
  intros Hraw Hall. unfold calculate_seasonal_factors.
  rewrite Hraw. cbn [bind]. apply normalize_zero. unfold mean.
  assert (total raw = 0%Qc) as ->; [|unfold Qcdiv; ring].
  clear Hraw. induction Hall as [|f raw -> _ IH]; [done|].
  rewrite total_cons, IH. ring.
Qed.

(** ** Signs of the factors *)

Lemma Qc_of_Z_pos n : 0 < n → (0 < Qc_of_Z n)%Qc.
Proof. intros. rewrite <-Z2Qc_inj_0. by apply (proj1 (Z2Qc_inj_lt 0 n)). Qed.

Lemma Qcdiv_pos a b : (0 < a)%Qc → (0 < b)%Qc → (0 < a / b)%Qc.
Proof. intros. apply Qcmult_pos_pos; [done|by apply Qcinv_pos]. Qed.

Lemma Qcdiv_nonneg a b : (0 ≤ a)%Qc → (0 < b)%Qc → (0 ≤ a / b)%Qc.
Proof.
  intros. apply Qcmult_nonneg_nonneg; [done|].
  by apply Qclt_le_weak, Qcinv_pos.
Qed.

Lemma total_nonneg l : Forall (λ x, 0 ≤ x)%Qc l → (0 ≤ total l)%Qc.
Proof.
  induction 1 as [|x l Hx _ IH]; [done|].
  rewrite total_cons. by apply Qcplus_nonneg_nonneg.
Qed.

Lemma total_pos l x :
  Forall (λ x, 0 ≤ x)%Qc l → x ∈ l → (0 < x)%Qc → (0 < total l)%Qc.
Proof.
  induction 1 as [|y l Hy Hl IH]; [by intros ?%elem_of_nil|].
  rewrite total_cons. intros [->|Hin]%elem_of_cons Hx.
  - apply Qcplus_pos_nonneg; [done|by apply total_nonneg].
  - apply Qcplus_nonneg_pos; [done|by apply IH].
Qed.

Lemma mean_nonneg l : Forall (λ x, 0 ≤ x)%Qc l → (0 ≤ mean l)%Qc.
Proof.
  intros Hl. unfold mean. destruct l as [|x l].
  - vm_compute. discriminate.
  - apply Qcdiv_nonneg; [by apply total_nonneg|].
    apply Qc_of_Z_pos. unfold py_len. simpl. lia.
Qed.

Lemma mean_pos l : Forall (λ x, 0 ≤ x)%Qc l → mean l ≠ 0%Qc → (0 < mean l)%Qc.
Proof.
  intros Hl Hne. destruct (Qcle_lt_or_eq _ _ (mean_nonneg l Hl)); [done|].
  by destruct Hne.
Qed.

Lemma obs_at_nonneg s k i d :
  Forall (λ x, 0 ≤ x)%Qc d → Forall (λ x, 0 ≤ x)%Qc (obs_at s k i d).
Proof.
  rewrite !Forall_forall. intros Hd x Hx. eapply Hd, obs_at_elem_of, Hx.
Qed.

Lemma position_factor_nonneg s d k :
  Forall (λ x, 0 ≤ x)%Qc d → (0 ≤ position_factor s d k)%Qc.
Proof.
  intros Hd. unfold position_factor. case_decide; [done|].
  by apply mean_nonneg, obs_at_nonneg.
Qed.

(** C8, as the code has it. On a series without negative observations, the
    normalised factor of a cycle position is strictly positive whenever
    some observation falls on that position and the observations there do
    not average to zero. *)
Theorem seasonal_factor_positive (self : SimpleTimeSeries) (k : Z) :
  1 ≤ seasonal_period self →
  Forall (λ x, 0 ≤ x)%Qc (data self) →
  (∃ i, 0 ≤ i < py_len (data self) ∧ i `mod` seasonal_period self = k) →
  mean (obs_at (seasonal_period self) k 0 (data self)) ≠ 0%Qc →
  ∃ factors f, calculate_seasonal_factors self = Ok factors ∧
               factors !! Z.to_nat k = Some f ∧ (0 < f)%Qc.
Proof.
  intros Hs Hd (i & Hi & Hik) Hm.
  pose proof (Z.mod_pos_bound i (seasonal_period self) ltac:(lia)) as Hk.
  rewrite Hik in Hk.
  set (raw := position_factor (seasonal_period self) (data self)
                <$> seqZ 0 (seasonal_period self)).
  assert (raw !! Z.to_nat k
            = Some (mean (obs_at (seasonal_period self) k 0 (data self))))
    as Hrawk.
  { unfold raw.
    rewrite list_lookup_fmap, (lookup_seqZ_lt _ _ (Z.to_nat k)) by lia.
    simpl. unfold position_factor. rewrite Z2Nat.id by lia.
    rewrite decide_False; [done|]. by apply (obs_at_cons _ _ _ 0 i). }
  assert (0 < mean (obs_at (seasonal_period self) k 0 (data self)))%Qc
    as Hpos by by apply mean_pos; [apply obs_at_nonneg|].
  assert (0 < mean raw)%Qc as Hmean.
  { unfold mean. apply Qcdiv_pos.
    - eapply total_pos; [|by eapply list_elem_of_lookup_2|done].
      apply Forall_fmap, Forall_forall. intros j _.
      by apply position_factor_nonneg.
    - apply Qc_of_Z_pos. unfold py_len, raw.
      rewrite length_fmap, length_seqZ. lia. }
  rewrite calculate_seasonal_factors_spec by done. fold raw.
  rewrite decide_False by by apply Qclt_not_eq in Hmean.
  eexists _, _. split_and!; [done| |].
  - by rewrite list_lookup_fmap, Hrawk.
  - by apply Qcdiv_pos.
Qed.

Lemma seasonal_factor_positive_witness :
  ∃ factors f,
    calculate_seasonal_factors
      {| data := Qc_of_Z <$> [1; 3; 5]; seasonal_period := 2 |} = Ok factors ∧
    factors !! 1%nat = Some f ∧ (0 < f)%Qc.
Proof.
  apply (seasonal_factor_positive
           {| data := Qc_of_Z <$> [1; 3; 5]; seasonal_period := 2 |} 1).
  - simpl. lia.
  - simpl. repeat constructor; vm_compute; discriminate.
  - exists 1. vm_compute. repeat split; discriminate.
  - intros H. apply (bool_decide_pack _) in H. vm_compute in H. exact H.
Defined.

(** With observations of both signs the claim as written fails: position 0
    holds the single observation 1, and its normalised factor is -1. *)
Lemma seasonal_factor_negative :
  let self := {| data := Qc_of_Z <$> [1; -3]; seasonal_period := 2 |} in
  (0 ≤ 0 < py_len (data self) ∧ 0 `mod` seasonal_period self = 0) ∧
  mean (obs_at (seasonal_period self) 0 0 (data self)) ≠ 0%Qc ∧
  calculate_seasonal_factors self = Ok (Qc_of_Z <$> [-1; 3]) ∧
  ¬ (0 < Qc_of_Z (-1))%Qc.
Proof.
  split; [|split; [|split]].
  - unfold py_len. simpl. split; [lia|reflexivity].
  - intros H. apply (bool_decide_pack _) in H. vm_compute in H. exact H.
  - by_compute.
  - intros H. vm_compute in H. discriminate.
Qed.

(** ** forecast_next_periods *)

Lemma py_getitem_lookup {A} (l : list A) (k : nat) x :
  l !! k = Some x → py_getitem l (Z.of_nat k) = Ok x.
Proof.
  intros Hk. pose proof (lookup_lt_Some _ _ _ Hk).
  unfold py_getitem, py_index, py_len.
  rewrite decide_True by lia. cbn [bind]. by rewrite Nat2Z.id, Hk.
Qed.

Lemma py_getitem_last {A} (l : list A) x :
  last l = Some x → py_getitem l (-1) = Ok x.
Proof.
  intros Hl. rewrite last_lookup in Hl. pose proof (lookup_lt_Some _ _ _ Hl).
  unfold py_getitem, py_index, py_len.
  rewrite decide_False, decide_True by lia. cbn [bind].
  replace (Z.to_nat (-1 + Z.of_nat (length l))) with (pred (length l)) by lia.
  by rewrite Hl.
Qed.

Lemma py_slice_from_final d (s : Z) :
  1 ≤ s ≤ py_len d →
  py_slice_from d (- s)
    = observations d (Z.to_nat (py_len d - s)) (Z.to_nat s).
Proof.
  intros Hs. unfold py_slice_from, slice_bound, py_len in *.
  rewrite decide_True by lia.
  rewrite <-take_drop_observations by lia.
  rewrite take_ge by (rewrite length_drop; lia).
  f_equal. lia.
Qed.

Lemma moving_average_means (self : SimpleTimeSeries) (w : Z) :
  1 ≤ w ≤ py_len (data self) →
  calculate_moving_average self w =
    Ok ((λ i, mean (observations (data self) (Z.to_nat i) (Z.to_nat w)))
          <$> py_range (py_len (data self) - w + 1)).
Proof.
  intros Hw. rewrite moving_average_nonzero_window by lia. f_equal.
  apply Forall_fmap_ext, Forall_forall. intros i Hi%elem_of_seqZ.
  rewrite py_slice_window, py_sum_total by lia.
  unfold mean, py_len. rewrite observations_length. do 2 f_equal. lia.
Qed.

(** With two full cycles of history the moving average has a first and a
    last element. *)
Lemma moving_average_ends (self : SimpleTimeSeries) :
  1 ≤ seasonal_period self →
  seasonal_period self * 2 ≤ py_len (data self) →
  ∃ ma first lst,
    calculate_moving_average self (seasonal_period self) = Ok ma ∧
    ma !! 0%nat = Some first ∧ last ma = Some lst ∧ 2 ≤ py_len ma.
Proof.
  intros Hs HN. rewrite moving_average_means by lia.
  set (ma := _ <$> _).
  assert (py_len ma = py_len (data self) - seasonal_period self + 1) as Hlen.
  { unfold ma, py_range, py_len in *. rewrite length_fmap, length_seqZ. lia. }
  destruct (lookup_lt_is_Some_2 ma 0) as [first Hfirst];
    [unfold py_len in *; lia|].
  destruct (lookup_lt_is_Some_2 ma (pred (length ma))) as [lst Hlst];
    [unfold py_len in *; lia|].
  exists ma, first, lst. rewrite last_lookup. split_and!; try done. lia.
Qed.

(** The forecast in closed form, whenever the seasonal factors exist. *)
Lemma forecast_next_periods_spec (self : SimpleTimeSeries) (periods : Z)
    (ma factors : list Qc) (first lst : Qc) :
  1 ≤ seasonal_period self →
  seasonal_period self * 2 ≤ py_len (data self) →
  calculate_moving_average self (seasonal_period self) = Ok ma →
  ma !! 0%nat = Some first → last ma = Some lst →
  calculate_seasonal_factors self = Ok factors →
  let N := py_len (data self) in
  let s := seasonal_period self in
  let last_level := mean (observations (data self) (Z.to_nat (N - s))
                            (Z.to_nat s)) in
  let trend_change := ((lst - first) / Qc_of_Z (py_len ma))%Qc in
  forecast_next_periods self periods =
    Ok ((λ i, (last_level + trend_change * Qc_of_Z (i + 1))
              * default 0 (factors !! Z.to_nat ((N + i) `mod` s)))%Qc
          <$> py_range periods).
Proof.
  intros Hs HN Hma Hfirst Hlast Hfac. cbv zeta.
  unfold forecast_next_periods. rewrite decide_False by lia.
  rewrite Hma. cbn [bind].
  rewrite (py_getitem_last _ _ Hlast). cbn [bind].
  change 0 with (Z.of_nat 0) at 1.
  rewrite (py_getitem_lookup _ 0 _ Hfirst). cbn [bind].
  pose proof (lookup_lt_Some _ _ _ Hfirst) as Hlen.
  rewrite py_div_ok by (apply Qc_of_Z_ne_0; unfold py_len; lia). cbn [bind].
  rewrite Hfac. cbn [bind].
  rewrite py_slice_from_final, py_sum_total by lia.
  rewrite py_div_ok by (apply Qc_of_Z_ne_0; lia). cbn [bind].
  assert (py_len factors = seasonal_period self) as Hflen.
  { rewrite calculate_seasonal_factors_spec in Hfac by done.
    case_decide; [done|]. injection Hfac as <-. unfold py_len.
    rewrite !length_fmap, length_seqZ. lia. }
  apply mapM_pure. intros i _.
  unfold py_mod. rewrite decide_False by lia. cbn [bind].
  pose proof (Z.mod_pos_bound (py_len (data self) + i)
                (seasonal_period self) ltac:(lia)) as Hmod.
  destruct (lookup_lt_is_Some_2 factors
              (Z.to_nat ((py_len (data self) + i)
                           `mod` seasonal_period self))) as [f Hf];
    [unfold py_len in Hflen; lia|].
  rewrite <-(Z2Nat.id ((py_len (data self) + i) `mod` seasonal_period self))
    by lia.
  rewrite (py_getitem_lookup _ _ _ Hf). cbn [bind].
  rewrite Nat2Z.id, Hf. simpl. do 3 f_equal.
  unfold mean, py_len. rewrite observations_length.
  do 2 f_equal. lia.
Qed.

(** C1, as the code has it. With at least two full cycles of history and
    seasonal factors that exist (the raw factors do not average to zero),
    the forecast for [periods >= 1] has exactly [periods] elements, and
    element [i] is [(last_level + trend_change * (i+1)) * factors[(N+i) mod s]]:
    [trend_change] is (last - first) / length over the moving average with
    window [s], and [last_level] the mean of the final [s] observations. *)
Theorem forecast_formula (self : SimpleTimeSeries) (periods : Z)
    (factors : list Qc) :
  1 ≤ seasonal_period self →
  seasonal_period self * 2 ≤ py_len (data self) →
  1 ≤ periods →
  calculate_seasonal_factors self = Ok factors →
  let N := py_len (data self) in
  let s := seasonal_period self in
  ∃ ma first lst forecast,
    calculate_moving_average self s = Ok ma ∧
    ma !! 0%nat = Some first ∧ last ma = Some lst ∧
    forecast_next_periods self periods = Ok forecast ∧
    py_len forecast = periods ∧
    ∀ i, 0 ≤ i < periods →
      ∃ f, factors !! Z.to_nat ((N + i) `mod` s) = Some f ∧
           forecast !! Z.to_nat i =
             Some ((mean (observations (data self) (Z.to_nat (N - s))
                            (Z.to_nat s))
                    + (lst - first) / Qc_of_Z (py_len ma) * Qc_of_Z (i + 1))
                   * f)%Qc.
Proof.
  intros Hs HN Hp Hfac. cbv zeta.
  destruct (moving_average_ends self Hs HN)
    as (ma & first & lst & Hma & Hfirst & Hlast & _).
  exists ma, first, lst. eexists. split_and!; try done.
  - by apply forecast_next_periods_spec.
  - unfold py_len, py_range. rewrite length_fmap, length_seqZ. lia.
  - intros i Hi.
    assert (py_len factors = seasonal_period self) as Hflen.
    { rewrite calculate_seasonal_factors_spec in Hfac by done.
      case_decide; [done|]. injection Hfac as <-. unfold py_len.
      rewrite !length_fmap, length_seqZ. lia. }
    pose proof (Z.mod_pos_bound (py_len (data self) + i)
                  (seasonal_period self) ltac:(lia)) as Hmod.
    destruct (lookup_lt_is_Some_2 factors
                (Z.to_nat ((py_len (data self) + i)
                             `mod` seasonal_period self))) as [f Hf];
      [unfold py_len in Hflen; lia|].
    exists f. split; [done|].
    unfold py_range.
    rewrite list_lookup_fmap, (lookup_seqZ_lt _ _ (Z.to_nat i)) by lia.
    simpl. rewrite Z2Nat.id by lia. by rewrite Z.add_0_l, Hf.
Qed.

Lemma forecast_formula_witness :
  let self := {| data := Qc_of_Z <$> [1; 3; 2; 4]; seasonal_period := 2 |} in
  let factors := [Qc_of_Z 3 / Qc_of_Z 5; Qc_of_Z 7 / Qc_of_Z 5]%Qc in
  let N := py_len (data self) in
  let s := seasonal_period self in
  ∃ ma first lst forecast,
    calculate_moving_average self s = Ok ma ∧
    ma !! 0%nat = Some first ∧ last ma = Some lst ∧
    forecast_next_periods self 3 = Ok forecast ∧
    py_len forecast = 3 ∧
    ∀ i, 0 ≤ i < 3 →
      ∃ f, factors !! Z.to_nat ((N + i) `mod` s) = Some f ∧
           forecast !! Z.to_nat i =
             Some ((mean (observations (data self) (Z.to_nat (N - s))
                            (Z.to_nat s))
                    + (lst - first) / Qc_of_Z (py_len ma) * Qc_of_Z (i + 1))
                   * f)%Qc.
Proof.
  intros self factors. apply (forecast_formula self 3 factors).
  - simpl. lia.
  - unfold py_len. simpl. lia.
  - lia.
  - by_compute.
Defined.

(** The claim as written fails where the raw factors cancel: four
    observations, two full cycles, and no forecast. *)
Lemma forecast_cancelling_factors :
  let self := {| data := Qc_of_Z <$> [1; -1; 1; -1]; seasonal_period := 2 |} in
  seasonal_period self * 2 ≤ py_len (data self) ∧
  raw_seasonal_factors self = Ok (Qc_of_Z <$> [1; -1]) ∧
  forecast_next_periods self 1 = Raise ZeroDivisionError.
Proof.
  split_and!; [unfold py_len; simpl; lia|by_compute|by_compute].
Qed.

Example forecast_two_cycles :
  forecast_next_periods
    {| data := Qc_of_Z <$> [1; 3; 2; 4]; seasonal_period := 2 |} 3
  = Ok [Qc_of_Z 2; Qc_of_Z 77 / Qc_of_Z 15; Qc_of_Z 12 / Qc_of_Z 5]%Qc.
Proof. by_compute. Qed.

(** *** The only [ValueError] is the one of the guard *)

(** [main] itself stops at the guard: 18 observations are fewer than two
    cycles of 12. *)
Example main_raises :
  forecast_next_periods (init historical_data) 6 = Raise (ValueError not_enough).
Proof. vm_compute. reflexivity. Qed.

Lemma calculate_moving_average_no_value_error self w :
  no_value_error (calculate_moving_average self w).
Proof.
  apply mapM_no_value_error. intros i. apply py_div_no_value_error.
Qed.

Lemma accumulate_no_value_error s acc iv :
  no_value_error (accumulate s acc iv).
Proof.
  destruct acc as [avgs counts], iv as [i v]. unfold accumulate.
  apply bind_no_value_error; [apply py_mod_no_value_error|]. intros k.
  apply bind_no_value_error; [apply py_index_no_value_error|]. intros ka.
  apply bind_no_value_error; [apply py_index_no_value_error|]. by intros kc.
Qed.

Lemma raw_factor_no_value_error ac : no_value_error (raw_factor ac).
Proof.
  destruct ac as [avg count]. unfold raw_factor.
  case_decide; [apply py_div_no_value_error|done].
Qed.

Lemma calculate_seasonal_factors_no_value_error self :
  no_value_error (calculate_seasonal_factors self).
Proof.
  unfold calculate_seasonal_factors, raw_seasonal_factors, normalize.
  repeat (apply bind_no_value_error; [|intros ?]).
  - apply foldM_no_value_error, accumulate_no_value_error.
  - apply mapM_no_value_error, raw_factor_no_value_error.
  - apply py_div_no_value_error.
  - apply mapM_no_value_error. intros f. apply py_div_no_value_error.
Qed.

Lemma forecast_after_guard_no_value_error self periods :
  ¬ py_len (data self) < seasonal_period self * 2 →
  no_value_error (forecast_next_periods self periods).
Proof.
  intros HN. unfold forecast_next_periods. rewrite decide_False by done.
  apply bind_no_value_error;
    [apply calculate_moving_average_no_value_error|intros ma].
  apply bind_no_value_error; [apply py_getitem_no_value_error|intros ?].
  apply bind_no_value_error; [apply py_getitem_no_value_error|intros ?].
  apply bind_no_value_error; [apply py_div_no_value_error|intros ?].
  apply bind_no_value_error;
    [apply calculate_seasonal_factors_no_value_error|intros factors].
  apply bind_no_value_error; [apply py_div_no_value_error|intros ?].
  apply mapM_no_value_error. intros i.
  apply bind_no_value_error; [apply py_mod_no_value_error|intros ?].
  apply bind_no_value_error; [apply py_getitem_no_value_error|by intros ?].
Qed.

(** C2. The method raises its [ValueError] (insufficient history) if and
    only if the series has fewer than [2*s] observations; the result is then
    the exception alone, with no forecast. *)
Theorem forecast_insufficient_history (self : SimpleTimeSeries) (periods : Z) :
  ((∃ msg, forecast_next_periods self periods = Raise (ValueError msg))
     ↔ py_len (data self) < seasonal_period self * 2) ∧
  (py_len (data self) < seasonal_period self * 2 →
     forecast_next_periods self periods = Raise (ValueError not_enough) ∧
     ∀ forecast, forecast_next_periods self periods ≠ Ok forecast).
Proof.
  assert (py_len (data self) < seasonal_period self * 2 →
          forecast_next_periods self periods = Raise (ValueError not_enough))
    as Hguard.
  { intros HN. unfold forecast_next_periods. by rewrite decide_True. }
  split; [split|].
  - intros [msg Hmsg].
    destruct (decide (py_len (data self) < seasonal_period self * 2))
      as [|HN]; [done|].
    pose proof (forecast_after_guard_no_value_error self periods HN) as Hno.
    by rewrite Hmsg in Hno.
  - intros HN. exists not_enough. by apply Hguard.
  - intros HN. split; [by apply Hguard|].
    intros forecast. by rewrite Hguard.
Qed.

Lemma forecast_insufficient_history_witness :
  forecast_next_periods (init historical_data) 6
    = Raise (ValueError not_enough) ∧
  ∀ forecast, forecast_next_periods (init historical_data) 6 ≠ Ok forecast.
Proof.
  apply (forecast_insufficient_history (init historical_data) 6).
  vm_compute. reflexivity.
Defined.

(** *** Flat series *)

(** C7. On the flat series of 24 zeros (period 12) the method raises
    [ZeroDivisionError] where the claim promises 12 forecasts equal to 0:
    the raw factors are all zero and the normalisation divides by their
    mean. *)
Theorem forecast_flat_zero :
  let self := init (replicate 24 (Qc_of_Z 0)) in
  seasonal_period self * 2 ≤ py_len (data self) ∧
  forecast_next_periods self 12 = Raise ZeroDivisionError.
Proof. split; [unfold py_len; simpl; lia|by_compute]. Qed.

(** Apart from the constant 0 the claim holds: a flat series of a non-zero
    constant [c] with two full cycles is forecast as [c] throughout. *)

Lemma all_equal_replicate (c : Qc) (l : list Qc) :
  (∀ x, x ∈ l → x = c) → l = replicate (length l) c.
Proof.
  intros Hl. symmetry. apply replicate_as_Forall. split; [done|].
  apply Forall_forall. intros x Hx. symmetry. by apply Hl.
Qed.

Lemma fmap_all_equal {A} (f : A → Qc) (c : Qc) (l : list A) :
  (∀ x, x ∈ l → f x = c) → f <$> l = replicate (length l) c.
Proof.
  intros Hl. rewrite <-(length_fmap f). apply all_equal_replicate.
  intros y (x & -> & Hx)%list_elem_of_fmap. by apply Hl.
Qed.

Lemma total_replicate (m : nat) (c : Qc) :
  total (replicate m c) = (Qc_of_Z (Z.of_nat m) * c)%Qc.
Proof.
  induction m as [|m IH].
  - change (0 = Qc_of_Z 0 * c)%Qc. rewrite Z2Qc_inj_0. ring.
  - cbn [replicate]. rewrite total_cons, IH, Nat2Z.inj_succ.
    unfold Z.succ. rewrite Z2Qc_inj_add, Z2Qc_inj_1. ring.
Qed.

Lemma mean_replicate (m : nat) (c : Qc) :
  (0 < m)%nat → mean (replicate m c) = c.
Proof.
  intros Hm. unfold mean, py_len. rewrite total_replicate, length_replicate.
  field. apply Qc_of_Z_ne_0. lia.
Qed.

Lemma observations_replicate (n i w : nat) (c : Qc) :
  (i + w ≤ n)%nat → observations (replicate n c) i w = replicate w c.
Proof.
  intros Hle. rewrite <-take_drop_observations
    by (rewrite length_replicate; lia).
  rewrite drop_replicate, take_replicate. f_equal. lia.
Qed.

Lemma position_factor_replicate (s k : Z) (n : nat) (c : Qc) :
  1 ≤ s → 0 ≤ k < s → s ≤ Z.of_nat n →
  position_factor s (replicate n c) k = c.
Proof.
  intros Hs Hk Hn. unfold position_factor.
  assert (obs_at s k 0 (replicate n c) ≠ []) as Hne.
  { apply (obs_at_cons _ _ _ 0 k).
    - unfold py_len. rewrite length_replicate. lia.
    - apply Z.mod_small. lia. }
  rewrite decide_False by done.
  rewrite (all_equal_replicate c (obs_at s k 0 (replicate n c))).
  - apply mean_replicate.
    destruct (obs_at s k 0 (replicate n c)); [done|simpl; lia].
  - intros x Hx%obs_at_elem_of. by eapply elem_of_replicate_inv.
Qed.

Lemma seasonal_factors_flat (c : Qc) (n : nat) (s : Z) :
  c ≠ 0%Qc → 1 ≤ s → s ≤ Z.of_nat n →
  calculate_seasonal_factors {| data := replicate n c; seasonal_period := s |}
    = Ok (replicate (Z.to_nat s) 1%Qc).
Proof.
  intros Hc Hs Hn. rewrite calculate_seasonal_factors_spec by done.
  cbn [data seasonal_period].
  rewrite (fmap_all_equal _ c (seqZ 0 s)).
  - rewrite length_seqZ, mean_replicate by lia.
    rewrite decide_False by done. rewrite fmap_replicate.
    do 2 f_equal. by field.
  - intros k Hk%elem_of_seqZ. apply position_factor_replicate; lia.
Qed.

Lemma forecast_flat_nonzero (c : Qc) (n : nat) (s periods : Z) :
  c ≠ 0%Qc → 1 ≤ s → s * 2 ≤ Z.of_nat n →
  forecast_next_periods {| data := replicate n c; seasonal_period := s |}
    periods = Ok (replicate (Z.to_nat periods) c).
Proof.
  intros Hc Hs Hn.
  set (self := {| data := replicate n c; seasonal_period := s |}).
  assert (py_len (data self) = Z.of_nat n) as HN
    by (unfold py_len; simpl; by rewrite length_replicate).
  assert (calculate_moving_average self s
            = Ok (replicate (Z.to_nat (Z.of_nat n - s + 1)) c)) as Hma.
  { rewrite moving_average_means by (rewrite HN; lia).
    rewrite HN. f_equal. unfold py_range.
    rewrite (fmap_all_equal _ c), length_seqZ; [done|].
    intros i Hi%elem_of_seqZ. simpl.
    rewrite observations_replicate by lia. apply mean_replicate. lia. }
  rewrite (forecast_next_periods_spec self periods
             (replicate (Z.to_nat (Z.of_nat n - s + 1)) c)
             (replicate (Z.to_nat s) 1%Qc) c c Hs).
  - f_equal. unfold py_range.
    rewrite (fmap_all_equal _ c), length_seqZ; [done|].
    intros i _. cbn [data seasonal_period self]. unfold py_len.
    rewrite !length_replicate.
    pose proof (Z.mod_pos_bound (Z.of_nat n + i) s ltac:(lia)).
    rewrite lookup_replicate_2 by lia. cbn [default].
    rewrite observations_replicate by lia.
    rewrite mean_replicate by lia. unfold Qcdiv, id. ring.
  - rewrite HN. simpl. lia.
  - done.
  - apply lookup_replicate_2. lia.
  - rewrite last_lookup, length_replicate. apply lookup_replicate_2. lia.
  - apply seasonal_factors_flat; [done|lia|lia].
Qed.

Example forecast_flat_seven :
  forecast_next_periods (init (replicate 24 (Qc_of_Z 7))) 6
    = Ok (replicate 6 (Qc_of_Z 7)).
Proof.
  apply (forecast_flat_nonzero (Qc_of_Z 7) 24 12 6); [|lia|lia].
  intros H. apply (bool_decide_pack _) in H. vm_compute in H. exact H.
Qed.

(** * Further properties of the three methods *)

(** ** More on calculate_moving_average *)

Lemma total_app l1 l2 : total (l1 ++ l2) = (total l1 + total l2)%Qc.
Proof.
  induction l1 as [|x l1 IH]; simpl.
  - by rewrite Qcplus_0_l.
  - fold (total (l1 ++ l2)) (total l1). rewrite IH. ring.
Qed.

Lemma observations_cons d i w :
  observations d i (S w) = nth i d 0%Qc :: observations d (S i) w.
Proof. done. Qed.

Lemma observations_snoc d i w :
  observations d i (w + 1) = observations d i w ++ [nth (i + w) d 0%Qc].
Proof. unfold observations. by rewrite seq_app, fmap_app. Qed.

Lemma total_observations_cons d i w :
  total (observations d i (S w))
    = (nth i d 0 + total (observations d (S i) w))%Qc.
Proof. by rewrite observations_cons, total_cons. Qed.

Lemma total_observations_snoc d i w :
  total (observations d i (S w))
    = (total (observations d i w) + nth (i + w) d 0)%Qc.
Proof.
  replace (S w) with (w + 1)%nat by lia.
  rewrite observations_snoc, total_app. simpl. ring.
Qed.

(** Every element of a moving average with a positive window is the mean of
    a full window of observations. *)
Lemma moving_average_lookup (self : SimpleTimeSeries) (w : Z) ma (i : nat) a :
  1 ≤ w → calculate_moving_average self w = Ok ma → ma !! i = Some a →
  Z.of_nat i + w ≤ py_len (data self) ∧
  a = mean (observations (data self) i (Z.to_nat w)).
Proof.
  intros Hw Hma Hi.
  destruct (decide (w ≤ py_len (data self))) as [Hle|Hgt].
  - rewrite moving_average_means in Hma by lia. injection Hma as <-.
    rewrite list_lookup_fmap in Hi. unfold py_range in Hi.
    destruct (seqZ _ _ !! i) as [j|] eqn:Hj; [|done].
    apply lookup_seqZ in Hj as [-> Hlt]. injection Hi as <-.
    split; [lia|]. by rewrite Z.add_0_l, Nat2Z.id.
  - rewrite moving_average_oversized_window_aux in Hma by lia.
    by injection Hma as <-.
Qed.

Lemma moving_average_identity (self : SimpleTimeSeries) :
  calculate_moving_average self 1 = Ok (data self).
Proof.
  rewrite moving_average_nonzero_window by done. f_equal.
  apply list_eq. intros j. rewrite list_lookup_fmap. unfold py_range.
  destruct (decide (Z.of_nat j < py_len (data self))) as [Hj|Hj].
  - replace (py_len (data self) - 1 + 1) with (py_len (data self)) by lia.
    rewrite lookup_seqZ_lt by done. simpl.
    rewrite py_slice_window by lia. rewrite py_sum_total.
    replace (Z.to_nat (0 + Z.of_nat j)) with j by lia.
    unfold py_len in Hj.
    destruct (lookup_lt_is_Some_2 (data self) j) as [x Hx]; [lia|].
    rewrite Hx. f_equal. change (Z.to_nat 1) with 1%nat.
    rewrite observations_cons. unfold observations. simpl.
    rewrite nth_lookup, Hx. simpl. rewrite Z2Qc_inj_1. by field.
  - rewrite lookup_seqZ_ge by lia. symmetry. apply lookup_ge_None.
    unfold py_len in Hj. lia.
Qed.

(** X1. With the window 1 the moving average is the series itself. *)
Theorem moving_average_window_one (self : SimpleTimeSeries) :
  calculate_moving_average self 1 = Ok (data self).
Proof. apply moving_average_identity. Qed.

(** X2. With the window [N], the length of a non-empty series, the moving
    average has one element, the mean of the whole series. *)
Theorem moving_average_full_window (self : SimpleTimeSeries) :
  data self ≠ [] →
  calculate_moving_average self (py_len (data self)) = Ok [mean (data self)].
Proof.
  intros Hne.
  assert (1 ≤ py_len (data self)) as HN.
  { unfold py_len. destruct (data self); [done|simpl; lia]. }
  rewrite moving_average_means by lia.
  replace (py_len (data self) - py_len (data self) + 1) with 1 by lia.
  f_equal. simpl. f_equal. f_equal.
  rewrite <-take_drop_observations by (unfold py_len; lia).
  simpl. apply take_ge. unfold py_len. lia.
Qed.

Lemma moving_average_full_window_witness :
  let self := init (Qc_of_Z <$> [3; 5; 10]) in
  calculate_moving_average self (py_len (data self)) = Ok [mean (data self)].
Proof.
  intros self. apply (moving_average_full_window self). simpl. discriminate.
Defined.

(** X3. Sliding the window by one step replaces the oldest observation by the
    next one: consecutive elements of a moving average with window [w >= 1]
    differ by [(x[i+w] - x[i]) / w]. *)
Theorem moving_average_step (self : SimpleTimeSeries) (w : Z) ma (i : nat)
    (a b : Qc) :
  1 ≤ w → calculate_moving_average self w = Ok ma →
  ma !! i = Some a → ma !! S i = Some b →
  b = (a + (nth (i + Z.to_nat w) (data self) 0 - nth i (data self) 0)
           / Qc_of_Z w)%Qc.
Proof.
  intros Hw Hma Ha Hb.
  destruct (moving_average_lookup self w ma i a Hw Hma Ha) as [_ ->].
  destruct (moving_average_lookup self w ma (S i) b Hw Hma Hb) as [_ ->].
  unfold mean, py_len. rewrite !observations_length.
  rewrite Z2Nat.id by lia.
  destruct (Z.to_nat w) as [|w'] eqn:Hw'; [lia|].
  rewrite (total_observations_cons _ i), (total_observations_snoc _ (S i)).
  replace (S i + w')%nat with (i + S w')%nat by lia.
  field. apply Qc_of_Z_ne_0. lia.
Qed.

Lemma moving_average_step_witness :
  let self := init (Qc_of_Z <$> [2; 4; 4]) in
  Qc_of_Z 4 = (Qc_of_Z 3 + (nth (0 + Z.to_nat 2) (data self) 0
                            - nth 0 (data self) 0) / Qc_of_Z 2)%Qc.
Proof.
  intros self.
  apply (moving_average_step self 2 (Qc_of_Z <$> [3; 4]) 0);
    [lia|by_compute|done|done].
Defined.

Lemma py_len_cons {A} (x : A) l : py_len (x :: l) = py_len l + 1.
Proof. unfold py_len. simpl length. lia. Qed.

Lemma total_lower (lo : Qc) l :
  Forall (λ x, lo ≤ x)%Qc l → (Qc_of_Z (py_len l) * lo ≤ total l)%Qc.
Proof.
  induction 1 as [|x l Hx _ IH].
  - change (Qc_of_Z 0 * lo ≤ 0)%Qc. by rewrite Z2Qc_inj_0, Qcmult_0_l.
  - rewrite py_len_cons, total_cons, Z2Qc_inj_add, Z2Qc_inj_1.
    replace ((Qc_of_Z (py_len l) + 1) * lo)%Qc
      with (lo + Qc_of_Z (py_len l) * lo)%Qc by ring.
    by apply Qcplus_le_compat.
Qed.

Lemma total_upper (hi : Qc) l :
  Forall (λ x, x ≤ hi)%Qc l → (total l ≤ Qc_of_Z (py_len l) * hi)%Qc.
Proof.
  induction 1 as [|x l Hx _ IH].
  - change (0 ≤ Qc_of_Z 0 * hi)%Qc. by rewrite Z2Qc_inj_0, Qcmult_0_l.
  - rewrite py_len_cons, total_cons, Z2Qc_inj_add, Z2Qc_inj_1.
    replace ((Qc_of_Z (py_len l) + 1) * hi)%Qc
      with (hi + Qc_of_Z (py_len l) * hi)%Qc by ring.
    by apply Qcplus_le_compat.
Qed.

Lemma mean_bounds (lo hi : Qc) l :
  l ≠ [] → Forall (λ x, lo ≤ x ≤ hi)%Qc l → (lo ≤ mean l ≤ hi)%Qc.
Proof.
  intros Hne Hl.
  assert (0 < Qc_of_Z (py_len l))%Qc as Hn.
  { apply Qc_of_Z_pos. unfold py_len. destruct l; [done|simpl; lia]. }
  pose proof (Qcinv_pos _ Hn) as Hinv.
  assert (Qc_of_Z (py_len l) ≠ 0%Qc) as Hn0 by by apply Qclt_not_eq in Hn.
  unfold mean, Qcdiv. split.
  - replace lo with (Qc_of_Z (py_len l) * lo * / Qc_of_Z (py_len l))%Qc
      at 1 by by field.
    apply Qcmult_le_mono_pos_r; [done|]. apply total_lower.
    eapply Forall_impl; [done|]. by intros x [??].
  - apply (proj2 (Qcmult_le_mono_pos_r _ _ _ Hn)).
    replace (total l * / Qc_of_Z (py_len l) * Qc_of_Z (py_len l))%Qc
      with (total l) by by field.
    rewrite (Qcmult_comm hi). apply total_upper.
    eapply Forall_impl; [done|]. by intros x [??].
Qed.

(** X4. A moving average with a window of at least 1 stays within any
    bounds the observations stay within. *)
Theorem moving_average_bounds (self : SimpleTimeSeries) (w : Z) ma
    (lo hi : Qc) :
  1 ≤ w → Forall (λ x, lo ≤ x ≤ hi)%Qc (data self) →
  calculate_moving_average self w = Ok ma →
  Forall (λ a, lo ≤ a ≤ hi)%Qc ma.
Proof.
  intros Hw Hd Hma. apply Forall_lookup. intros i a Ha.
  destruct (moving_average_lookup self w ma i a Hw Hma Ha) as [Hi ->].
  unfold py_len in Hi.
  rewrite <-take_drop_observations by lia.
  apply mean_bounds.
  - intros Hnil. apply (f_equal length) in Hnil.
    rewrite length_take, length_drop in Hnil. simpl in Hnil. lia.
  - by apply Forall_take, Forall_drop.
Qed.

Lemma moving_average_bounds_witness :
  Forall (λ a, Qc_of_Z 2 ≤ a ≤ Qc_of_Z 4)%Qc (Qc_of_Z <$> [3; 4]).
Proof.
  apply (moving_average_bounds (init (Qc_of_Z <$> [2; 4; 4])) 2);
    [lia| |by_compute].
  simpl. repeat constructor; vm_compute; discriminate.
Defined.

Lemma total_affine (a b : Qc) l :
  total ((λ x, a * x + b)%Qc <$> l)
    = (a * total l + Qc_of_Z (py_len l) * b)%Qc.
Proof.
  induction l as [|x l IH].
  - change (0 = a * 0 + Qc_of_Z 0 * b)%Qc. rewrite Z2Qc_inj_0. ring.
  - rewrite fmap_cons, !total_cons, IH, py_len_cons, Z2Qc_inj_add, Z2Qc_inj_1.
    ring.
Qed.

Lemma mean_affine (a b : Qc) l :
  l ≠ [] → mean ((λ x, a * x + b)%Qc <$> l) = (a * mean l + b)%Qc.
Proof.
  intros Hne. unfold mean. rewrite total_affine. unfold py_len.
  rewrite length_fmap. field. apply Qc_of_Z_ne_0.
  destruct l; [done|simpl; lia].
Qed.

Lemma observations_fmap (f : Qc → Qc) d (i w : nat) :
  (i + w ≤ length d)%nat →
  observations (f <$> d) i w = f <$> observations d i w.
Proof.
  intros Hle. rewrite <-!take_drop_observations
    by (rewrite ?length_fmap; lia).
  by rewrite fmap_take, fmap_drop.
Qed.

(** X5. The moving average commutes with a change of unit and origin: for a
    window of at least 1, the moving average of the series [a*x + b] is
    [a*m + b] for the moving average [m] of the series [x]. *)
Theorem moving_average_affine (self : SimpleTimeSeries) (w : Z) ma (a b : Qc) :
  1 ≤ w → calculate_moving_average self w = Ok ma →
  calculate_moving_average
    {| data := (λ x, a * x + b)%Qc <$> data self;
       seasonal_period := seasonal_period self |} w
  = Ok ((λ m, a * m + b)%Qc <$> ma).
Proof.
  intros Hw Hma.
  destruct (decide (w ≤ py_len (data self))) as [Hle|Hgt].
  - rewrite moving_average_means in Hma by lia. injection Hma as <-.
    rewrite moving_average_means
      by (cbn [data]; unfold py_len in *; rewrite length_fmap; lia).
    cbn [data]. unfold py_len. rewrite length_fmap. f_equal.
    rewrite <-list_fmap_compose. apply Forall_fmap_ext, Forall_forall.
    intros i Hi%elem_of_seqZ. simpl. unfold py_len in *.
    rewrite observations_fmap by lia. apply mean_affine.
    intros Hnil. apply (f_equal length) in Hnil.
    rewrite observations_length in Hnil. simpl in Hnil. lia.
  - rewrite moving_average_oversized_window_aux in Hma by lia.
    injection Hma as <-.
    apply moving_average_oversized_window_aux. cbn [data].
    unfold py_len in *. rewrite length_fmap. lia.
Qed.

Lemma moving_average_affine_witness :
  calculate_moving_average
    {| data := (λ x, Qc_of_Z 2 * x + Qc_of_Z 1)%Qc
                 <$> data (init (Qc_of_Z <$> [2; 4; 4]));
       seasonal_period := seasonal_period (init (Qc_of_Z <$> [2; 4; 4])) |} 2
  = Ok ((λ m, Qc_of_Z 2 * m + Qc_of_Z 1)%Qc <$> (Qc_of_Z <$> [3; 4])).
Proof.
  apply (moving_average_affine (init (Qc_of_Z <$> [2; 4; 4])) 2);
    [lia|by_compute].
Defined.

(** ** More on calculate_seasonal_factors *)

(** X6. What the accumulation loop computes: for a period [s >= 1] the raw
    factors are [s] numbers, and the one of cycle position [k] is the mean
    of the observations whose index is [k] modulo [s], or 1 when there is
    no such observation. *)
Theorem raw_seasonal_factors_positions (self : SimpleTimeSeries) :
  1 ≤ seasonal_period self →
  ∃ raw, raw_seasonal_factors self = Ok raw ∧
         py_len raw = seasonal_period self ∧
         ∀ k, 0 ≤ k < seasonal_period self →
              let obs := obs_at (seasonal_period self) k 0 (data self) in
              raw !! Z.to_nat k = Some (if decide (obs = []) then 1%Qc
                                        else mean obs).
Proof.
  intros Hs. eexists. split_and!.
  - by apply raw_seasonal_factors_spec.
  - unfold py_len. rewrite length_fmap, length_seqZ. lia.
  - intros k Hk obs.
    rewrite list_lookup_fmap, (lookup_seqZ_lt _ _ (Z.to_nat k)) by lia.
    simpl. by rewrite Z2Nat.id by lia.
Qed.

Lemma raw_seasonal_factors_positions_witness :
  let self := {| data := Qc_of_Z <$> [4; 6; 8]; seasonal_period := 2 |} in
  ∃ raw, raw_seasonal_factors self = Ok raw ∧
         py_len raw = seasonal_period self ∧
         ∀ k, 0 ≤ k < seasonal_period self →
              let obs := obs_at (seasonal_period self) k 0 (data self) in
              raw !! Z.to_nat k = Some (if decide (obs = []) then 1%Qc
                                        else mean obs).
Proof.
  intros self. apply (raw_seasonal_factors_positions self). simpl. lia.
Defined.

(** X7. For a period [s >= 1] the only exception the method can raise is
    [ZeroDivisionError], and it raises it exactly when the raw factors sum
    to zero. *)
Theorem seasonal_factors_exceptions (self : SimpleTimeSeries) (raw : list Qc) :
  1 ≤ seasonal_period self →
  raw_seasonal_factors self = Ok raw →
  (∀ e, calculate_seasonal_factors self = Raise e → e = ZeroDivisionError) ∧
  (calculate_seasonal_factors self = Raise ZeroDivisionError
     ↔ total raw = 0%Qc).
Proof.
  intros Hs Hraw.
  assert (Qc_of_Z (py_len raw) ≠ 0%Qc) as Hn.
  { rewrite raw_seasonal_factors_spec in Hraw by done. injection Hraw as <-.
    apply Qc_of_Z_ne_0. unfold py_len. rewrite length_fmap, length_seqZ. lia. }
  assert (mean raw = 0%Qc ↔ total raw = 0%Qc) as Hmean.
  { unfold mean. split.
    - intros Hm. rewrite <-(Qcmult_div_r (total raw) _ Hn), Hm. ring.
    - intros ->. unfold Qcdiv. ring. }
  unfold calculate_seasonal_factors. rewrite Hraw. cbn [bind].
  destruct (decide (mean raw = 0%Qc)) as [Hm|Hm].
  - rewrite normalize_zero by done. split; [by intros e [= <-]|].
    split; [intros _; by apply Hmean|done].
  - rewrite normalize_ok by done. split; [done|].
    split; [done|]. intros Ht. by apply Hmean in Ht.
Qed.

Lemma seasonal_factors_exceptions_witness :
  let self := {| data := Qc_of_Z <$> [1; -1]; seasonal_period := 2 |} in
  (∀ e, calculate_seasonal_factors self = Raise e → e = ZeroDivisionError) ∧
  (calculate_seasonal_factors self = Raise ZeroDivisionError
     ↔ total (Qc_of_Z <$> [1; -1]) = 0%Qc).
Proof.
  intros self. apply (seasonal_factors_exceptions self); [simpl; lia|].
  by_compute.
Defined.

(** With a period of 0 or less the method never returns. *)
Lemma seasonal_factors_bad_period (self : SimpleTimeSeries) :
  seasonal_period self ≤ 0 →
  calculate_seasonal_factors self =
    Raise (if decide (seasonal_period self < 0 ∧ data self ≠ [])
           then IndexError else ZeroDivisionError).
Proof.
  intros Hs. unfold calculate_seasonal_factors, raw_seasonal_factors.
  replace (Z.to_nat (seasonal_period self)) with 0%nat by lia.
  destruct (data self) as [|x d] eqn:Hd.
  - rewrite decide_False by (by intros [_ ?]). done.
  - unfold enumerate. cbn [enumerate_from foldM replicate accumulate].
    unfold py_mod. destruct (decide (seasonal_period self = 0)) as [H0|H0].
    + rewrite decide_False by lia. done.
    + rewrite decide_True by (split; [lia|done]). cbn [bind].
      rewrite Z.mod_0_l by done. done.
Qed.

(** X8. A period of 0 or less is always an error: the method raises
    [IndexError] when the period is negative and the series non-empty
    (the accumulators are empty lists), and [ZeroDivisionError]
    otherwise. *)
Theorem seasonal_factors_nonpositive_period (self : SimpleTimeSeries) :
  seasonal_period self ≤ 0 →
  calculate_seasonal_factors self =
    Raise (if decide (seasonal_period self < 0 ∧ data self ≠ [])
           then IndexError else ZeroDivisionError).
Proof. apply seasonal_factors_bad_period. Qed.

Lemma seasonal_factors_nonpositive_period_witness :
  let self := {| data := Qc_of_Z <$> [1; 2]; seasonal_period := -3 |} in
  calculate_seasonal_factors self =
    Raise (if decide (seasonal_period self < 0 ∧ data self ≠ [])
           then IndexError else ZeroDivisionError).
Proof.
  intros self. apply (seasonal_factors_nonpositive_period self). simpl. lia.
Defined.

(** X9. On the empty series (and a period [s >= 1]) the method returns [s]
    factors equal to 1. *)
Theorem seasonal_factors_empty_series (self : SimpleTimeSeries) :
  1 ≤ seasonal_period self → data self = [] →
  calculate_seasonal_factors self
    = Ok (replicate (Z.to_nat (seasonal_period self)) 1%Qc).
Proof.
  intros Hs Hd. rewrite calculate_seasonal_factors_spec by done.
  cbv zeta. rewrite Hd.
  rewrite (fmap_all_equal _ 1%Qc (seqZ 0 (seasonal_period self)))
    by done.
  rewrite length_seqZ, mean_replicate by lia.
  rewrite decide_False by done. rewrite fmap_replicate. done.
Qed.

Lemma seasonal_factors_empty_series_witness :
  let self := {| data := []; seasonal_period := 4 |} in
  calculate_seasonal_factors self
    = Ok (replicate (Z.to_nat (seasonal_period self)) 1%Qc).
Proof.
  intros self. apply (seasonal_factors_empty_series self); [simpl; lia|done].
Defined.

Lemma obs_at_fmap (f : Qc → Qc) s k l :
  ∀ i, obs_at s k i (f <$> l) = f <$> obs_at s k i l.
Proof.
  induction l as [|x l IH]; intros i; [done|].
  rewrite fmap_cons. cbn [obs_at]. case_decide; by rewrite ?fmap_cons, IH.
Qed.

Lemma total_scale_l (a : Qc) l :
  total ((λ x, a * x)%Qc <$> l) = (a * total l)%Qc.
Proof.
  induction l as [|x l IH].
  - simpl. ring.
  - rewrite fmap_cons, !total_cons, IH. ring.
Qed.

Lemma mean_scale_l (a : Qc) l :
  mean ((λ x, a * x)%Qc <$> l) = (a * mean l)%Qc.
Proof.
  unfold mean, py_len. rewrite total_scale_l, length_fmap.
  unfold Qcdiv. ring.
Qed.

Lemma position_factor_scale (a : Qc) s d k :
  obs_at s k 0 d ≠ [] →
  position_factor s ((λ x, a * x)%Qc <$> d) k
    = (a * position_factor s d k)%Qc.
Proof.
  intros Hne. unfold position_factor. rewrite obs_at_fmap.
  rewrite (decide_False (P := obs_at s k 0 d = [])) by done.
  rewrite decide_False by (by intros ?%fmap_nil_inv).
  apply mean_scale_l.
Qed.

Lemma raw_factors_scale (a : Qc) (s : Z) d :
  1 ≤ s ≤ py_len d →
  position_factor s ((λ x, a * x)%Qc <$> d) <$> seqZ 0 s
    = (λ x, a * x)%Qc <$> (position_factor s d <$> seqZ 0 s).
Proof.
  intros Hs. rewrite <-list_fmap_compose.
  apply Forall_fmap_ext, Forall_forall. intros k Hk%elem_of_seqZ. simpl.
  apply position_factor_scale, (obs_at_cons _ _ _ 0 k); [lia|].
  apply Z.mod_small. lia.
Qed.

Lemma seasonal_factors_scale (self : SimpleTimeSeries) (a : Qc) :
  a ≠ 0%Qc →
  1 ≤ seasonal_period self ≤ py_len (data self) →
  calculate_seasonal_factors
    {| data := (λ x, a * x)%Qc <$> data self;
       seasonal_period := seasonal_period self |}
  = calculate_seasonal_factors self.
Proof.
  intros Ha Hs. rewrite !calculate_seasonal_factors_spec by (simpl; lia).
  cbv zeta. cbn [data seasonal_period].
  rewrite raw_factors_scale by done.
  set (raw := position_factor _ _ <$> _). rewrite mean_scale_l.
  destruct (decide (mean raw = 0%Qc)) as [Hm|Hm].
  - rewrite decide_True; [done|]. rewrite Hm. ring.
  - rewrite decide_False.
    + f_equal. rewrite <-list_fmap_compose. apply list_fmap_ext.
      intros _ f _. simpl. by field.
    + intros [?|?]%Qcmult_integral; done.
Qed.

(** X10. The factors describe the shape of the cycle, not the level of the
    series: when every cycle position is observed ([1 <= s <= N]),
    multiplying all observations by a constant [a <> 0] leaves the outcome
    of the method unchanged. *)
Theorem seasonal_factors_scale_invariant (self : SimpleTimeSeries) (a : Qc) :
  a ≠ 0%Qc →
  1 ≤ seasonal_period self ≤ py_len (data self) →
  calculate_seasonal_factors
    {| data := (λ x, a * x)%Qc <$> data self;
       seasonal_period := seasonal_period self |}
  = calculate_seasonal_factors self.
Proof. apply seasonal_factors_scale. Qed.

Lemma seasonal_factors_scale_invariant_witness :
  let self := {| data := Qc_of_Z <$> [1; 3; 5]; seasonal_period := 2 |} in
  calculate_seasonal_factors
    {| data := (λ x, Qc_of_Z 10 * x)%Qc <$> data self;
       seasonal_period := seasonal_period self |}
  = calculate_seasonal_factors self.
Proof.
  intros self. apply (seasonal_factors_scale_invariant self).
  - intros H. apply (bool_decide_pack _) in H. vm_compute in H. exact H.
  - unfold py_len. simpl. lia.
Defined.

(** When some cycle position has no observation the invariance is lost: its
    raw factor stays 1 while the others scale. *)
Example seasonal_factors_scale_short_series :
  calculate_seasonal_factors
    {| data := Qc_of_Z <$> [1]; seasonal_period := 2 |}
    = Ok [Qc_of_Z 1; Qc_of_Z 1] ∧
  calculate_seasonal_factors
    {| data := Qc_of_Z <$> [3]; seasonal_period := 2 |}
    = Ok [Qc_of_Z 3 / Qc_of_Z 2; Qc_of_Z 1 / Qc_of_Z 2]%Qc.
Proof. split; by_compute. Qed.

(** ** More on forecast_next_periods *)

Lemma list_ends {A} (l : list A) :
  l ≠ [] → ∃ first lst, l !! 0%nat = Some first ∧ last l = Some lst.
Proof.
  intros Hne. destruct l as [|x l]; [done|].
  destruct (lookup_lt_is_Some_2 (x :: l) (pred (length (x :: l))))
    as [lst Hlst]; [simpl; lia|].
  exists x, lst. by rewrite last_lookup.
Qed.

(** Once the trend is computed, an exception of the seasonal factors is the
    outcome of the forecast. *)
Lemma forecast_factors_raise (self : SimpleTimeSeries) (periods : Z) ma e :
  ¬ py_len (data self) < seasonal_period self * 2 →
  calculate_moving_average self (seasonal_period self) = Ok ma → ma ≠ [] →
  calculate_seasonal_factors self = Raise e →
  forecast_next_periods self periods = Raise e.
Proof.
  intros HN Hma Hne He.
  destruct (list_ends ma Hne) as (first & lst & Hfirst & Hlast).
  unfold forecast_next_periods. rewrite decide_False by done.
  rewrite Hma. cbn [bind].
  rewrite (py_getitem_last _ _ Hlast). cbn [bind].
  change 0 with (Z.of_nat 0) at 1.
  rewrite (py_getitem_lookup _ 0 _ Hfirst). cbn [bind].
  rewrite py_div_ok.
  - cbn [bind]. by rewrite He.
  - apply Qc_of_Z_ne_0. unfold py_len. destruct ma; [done|simpl; lia].
Qed.

Lemma forecast_bad_period (self : SimpleTimeSeries) (periods : Z) :
  seasonal_period self ≤ 0 →
  forecast_next_periods self periods =
    Raise (if decide (seasonal_period self < 0 ∧ data self ≠ [])
           then IndexError else ZeroDivisionError).
Proof.
  intros Hs.
  assert (¬ py_len (data self) < seasonal_period self * 2) as HN
    by (unfold py_len; lia).
  destruct (decide (seasonal_period self = 0)) as [H0|H0].
  - rewrite decide_False by lia.
    unfold forecast_next_periods. rewrite decide_False by done.
    by rewrite H0, moving_average_zero_window.
  - eapply forecast_factors_raise; [done| | |].
    + by apply moving_average_nonzero_window.
    + intros Hnil. apply (f_equal length) in Hnil.
      unfold py_range, py_len in Hnil.
      rewrite length_fmap, length_seqZ in Hnil. simpl in Hnil. lia.
    + by apply seasonal_factors_bad_period.
Qed.

(** Every forecast that is returned is the closed form of
    [forecast_next_periods_spec]. *)
Lemma forecast_ok_inv (self : SimpleTimeSeries) (periods : Z) forecast :
  forecast_next_periods self periods = Ok forecast →
  1 ≤ seasonal_period self ∧
  seasonal_period self * 2 ≤ py_len (data self) ∧
  ∃ ma first lst factors,
    calculate_moving_average self (seasonal_period self) = Ok ma ∧
    ma !! 0%nat = Some first ∧ last ma = Some lst ∧
    calculate_seasonal_factors self = Ok factors.
Proof.
  intros Hok.
  destruct (decide (seasonal_period self ≤ 0)) as [Hs|Hs].
  { by rewrite forecast_bad_period in Hok. }
  destruct (decide (py_len (data self) < seasonal_period self * 2))
    as [HN|HN].
  { unfold forecast_next_periods in Hok. by rewrite decide_True in Hok. }
  split; [lia|]. split; [lia|].
  destruct (moving_average_ends self) as (ma & first & lst & Hma & ? & ? & Hl);
    [lia|lia|].
  exists ma, first, lst.
  destruct (calculate_seasonal_factors self) as [factors|e] eqn:Hfac.
  - by exists factors.
  - rewrite (forecast_factors_raise self periods ma e) in Hok; try done.
    intros ->. unfold py_len in Hl. simpl in Hl. lia.
Qed.

(** X11. Whether a forecast is returned does not depend on the horizon: the
    method returns if and only if the series has at least [2*s]
    observations and [calculate_seasonal_factors] returns. *)
Theorem forecast_returns_iff (self : SimpleTimeSeries) (periods : Z) :
  (∃ forecast, forecast_next_periods self periods = Ok forecast) ↔
  seasonal_period self * 2 ≤ py_len (data self) ∧
  ∃ factors, calculate_seasonal_factors self = Ok factors.
Proof.
  split.
  - intros [forecast Hok].
    destruct (forecast_ok_inv self periods forecast Hok)
      as (_ & HN & _ & _ & _ & factors & _ & _ & _ & Hfac).
    split; [done|by exists factors].
  - intros [HN [factors Hfac]].
    destruct (decide (seasonal_period self ≤ 0)) as [Hs|Hs].
    { by rewrite seasonal_factors_bad_period in Hfac. }
    destruct (moving_average_ends self) as (ma & first & lst & ? & ? & ? & _);
      [lia|lia|].
    eexists.
    by apply (forecast_next_periods_spec self periods ma factors first lst);
      try lia.
Qed.

(** X12. For a period [s >= 1] the method raises only the [ValueError] of
    its guard, when the series is shorter than [2*s], and otherwise the
    [ZeroDivisionError] of the seasonal factors; it never raises
    [IndexError]. *)
Theorem forecast_exceptions (self : SimpleTimeSeries) (periods : Z) (e : exn) :
  1 ≤ seasonal_period self →
  forecast_next_periods self periods = Raise e →
  (e = ValueError not_enough ∧
   py_len (data self) < seasonal_period self * 2) ∨
  (e = ZeroDivisionError ∧
   seasonal_period self * 2 ≤ py_len (data self) ∧
   calculate_seasonal_factors self = Raise ZeroDivisionError).
Proof.
  intros Hs He.
  destruct (decide (py_len (data self) < seasonal_period self * 2))
    as [HN|HN].
  - left. unfold forecast_next_periods in He.
    rewrite decide_True in He by done. by injection He as <-.
  - right.
    destruct (moving_average_ends self) as (ma & first & lst & Hma & ? & ? & Hl);
      [lia|lia|].
    destruct (calculate_seasonal_factors self) as [factors|e'] eqn:Hfac.
    + rewrite (forecast_next_periods_spec self periods ma factors first lst)
        in He by (done || lia). done.
    + rewrite (forecast_factors_raise self periods ma e') in He; try done.
      * injection He as <-.
        rewrite calculate_seasonal_factors_spec in Hfac by done.
        case_decide; [|done]. injection Hfac as <-. split_and!; [done|lia|done].
      * intros ->. unfold py_len in Hl. simpl in Hl. lia.
Qed.

Lemma forecast_exceptions_witness :
  let self := init (replicate 24 (Qc_of_Z 0)) in
  (ZeroDivisionError = ValueError not_enough ∧
   py_len (data self) < seasonal_period self * 2) ∨
  (ZeroDivisionError = ZeroDivisionError ∧
   seasonal_period self * 2 ≤ py_len (data self) ∧
   calculate_seasonal_factors self = Raise ZeroDivisionError).
Proof.
  intros self. apply (forecast_exceptions self 12); [simpl; lia|by_compute].
Defined.

(** X13. With a period of 0 or less the forecast is always an exception:
    [IndexError] when the period is negative and the series non-empty,
    [ZeroDivisionError] otherwise; the guard on the length never fires. *)
Theorem forecast_nonpositive_period (self : SimpleTimeSeries) (periods : Z) :
  seasonal_period self ≤ 0 →
  forecast_next_periods self periods =
    Raise (if decide (seasonal_period self < 0 ∧ data self ≠ [])
           then IndexError else ZeroDivisionError).
Proof. apply forecast_bad_period. Qed.

Lemma forecast_nonpositive_period_witness :
  let self := {| data := Qc_of_Z <$> [1; 2]; seasonal_period := 0 |} in
  forecast_next_periods self 3 =
    Raise (if decide (seasonal_period self < 0 ∧ data self ≠ [])
           then IndexError else ZeroDivisionError).
Proof.
  intros self. apply (forecast_nonpositive_period self 3). simpl. lia.
Defined.

(** The closed form, from the result alone. *)
Lemma forecast_ok_closed (self : SimpleTimeSeries) (periods : Z) forecast :
  forecast_next_periods self periods = Ok forecast →
  ∃ ma first lst factors,
    calculate_moving_average self (seasonal_period self) = Ok ma ∧
    ma !! 0%nat = Some first ∧ last ma = Some lst ∧
    calculate_seasonal_factors self = Ok factors ∧
    1 ≤ seasonal_period self ∧
    ∀ periods',
      forecast_next_periods self periods' =
        Ok ((λ i, (mean (observations (data self)
                           (Z.to_nat (py_len (data self)
                                      - seasonal_period self))
                           (Z.to_nat (seasonal_period self)))
                   + (lst - first) / Qc_of_Z (py_len ma) * Qc_of_Z (i + 1))
                  * default 0 (factors
                                 !! Z.to_nat ((py_len (data self) + i)
                                              `mod` seasonal_period self)))%Qc
              <$> py_range periods').
Proof.
  intros Hok.
  destruct (forecast_ok_inv self periods forecast Hok)
    as (Hs & HN & ma & first & lst & factors & Hma & Hfirst & Hlast & Hfac).
  exists ma, first, lst, factors. split_and!; try done.
  intros periods'. by apply forecast_next_periods_spec.
Qed.

(** X14. A forecast that is returned has [max 0 periods] elements; in
    particular a horizon of 0 or less gives the empty forecast. *)
Theorem forecast_length (self : SimpleTimeSeries) (periods : Z) forecast :
  forecast_next_periods self periods = Ok forecast →
  py_len forecast = Z.max 0 periods.
Proof.
  intros Hok.
  destruct (forecast_ok_closed self periods forecast Hok)
    as (ma & first & lst & factors & _ & _ & _ & _ & _ & Hclosed).
  rewrite Hclosed in Hok. injection Hok as <-.
  unfold py_len, py_range. rewrite length_fmap, length_seqZ. lia.
Qed.

Lemma forecast_length_witness :
  py_len (@nil Qc) = Z.max 0 (-2).
Proof.
  apply (forecast_length
           {| data := Qc_of_Z <$> [1; 3; 2; 4]; seasonal_period := 2 |}).
  by_compute.
Defined.

Lemma take_seqZ (p p' : Z) :
  p ≤ p' → take (Z.to_nat p) (seqZ 0 p') = seqZ 0 p.
Proof.
  intros Hle. destruct (decide (p ≤ 0)) as [Hp|Hp].
  - replace (Z.to_nat p) with 0%nat by lia.
    unfold seqZ. by replace (Z.to_nat p) with 0%nat by lia.
  - replace p' with (p + (p' - p)) by lia.
    rewrite seqZ_app by lia. apply take_app_length'.
    by rewrite length_seqZ.
Qed.

(** X15. Forecasts for different horizons agree: the forecast for [p]
    periods is the first [p] elements of the forecast for any longer
    horizon. *)
Theorem forecast_prefix (self : SimpleTimeSeries) (p p' : Z) forecast :
  p ≤ p' →
  forecast_next_periods self p' = Ok forecast →
  forecast_next_periods self p = Ok (take (Z.to_nat p) forecast).
Proof.
  intros Hle Hok.
  destruct (forecast_ok_closed self p' forecast Hok)
    as (ma & first & lst & factors & _ & _ & _ & _ & _ & Hclosed).
  rewrite Hclosed in Hok. injection Hok as <-. rewrite Hclosed.
  unfold py_range. by rewrite <-fmap_take, take_seqZ.
Qed.

Lemma forecast_prefix_witness :
  forecast_next_periods
    {| data := Qc_of_Z <$> [1; 3; 2; 4]; seasonal_period := 2 |} 1
  = Ok (take (Z.to_nat 1)
          [Qc_of_Z 2; Qc_of_Z 77 / Qc_of_Z 15; Qc_of_Z 12 / Qc_of_Z 5]%Qc).
Proof.
  apply (forecast_prefix _ 1 3); [lia|by_compute].
Defined.

(** X16. Without trend the forecast repeats the cycle: when the moving
    average ends on the value it starts with, the forecast [s] steps later
    equals the forecast now. *)
Theorem forecast_without_trend_periodic (self : SimpleTimeSeries)
    (periods : Z) forecast ma (i : nat) :
  forecast_next_periods self periods = Ok forecast →
  calculate_moving_average self (seasonal_period self) = Ok ma →
  last ma = ma !! 0%nat →
  Z.of_nat i + seasonal_period self < periods →
  forecast !! (i + Z.to_nat (seasonal_period self))%nat = forecast !! i.
Proof.
  intros Hok Hma Hflat Hi.
  destruct (forecast_ok_closed self periods forecast Hok)
    as (ma' & first & lst & factors & Hma' & Hfirst & Hlast & _ & Hs
        & Hclosed).
  rewrite Hma in Hma'. injection Hma' as <-.
  rewrite Hflat, Hfirst in Hlast. injection Hlast as <-.
  rewrite Hclosed in Hok. injection Hok as <-. unfold py_range.
  rewrite !list_lookup_fmap.
  rewrite (lookup_seqZ_lt _ _ i), (lookup_seqZ_lt _ _ (i + _)) by lia.
  simpl. f_equal. rewrite !Z.add_0_l.
  replace (py_len (data self)
           + Z.of_nat (i + Z.to_nat (seasonal_period self)))
    with (py_len (data self) + Z.of_nat i + 1 * seasonal_period self) by lia.
  rewrite Z.mod_add by lia.
  replace (first - first)%Qc with 0%Qc by ring.
  unfold Qcdiv. ring.
Qed.

Lemma forecast_without_trend_periodic_witness :
  let self := {| data := Qc_of_Z <$> [1; 3; 1; 3]; seasonal_period := 2 |} in
  (Qc_of_Z <$> [1; 3; 1; 3]) !! (1 + Z.to_nat (seasonal_period self))%nat
    = (Qc_of_Z <$> [1; 3; 1; 3]) !! 1%nat.
Proof.
  intros self.
  apply (forecast_without_trend_periodic self 4 _ (Qc_of_Z <$> [2; 2; 2]));
    [by_compute|by_compute|done|simpl; lia].
Defined.

Lemma moving_average_scale (self : SimpleTimeSeries) (w : Z) ma (a : Qc) :
  1 ≤ w ≤ py_len (data self) →
  calculate_moving_average self w = Ok ma →
  calculate_moving_average
    {| data := (λ x, a * x)%Qc <$> data self;
       seasonal_period := seasonal_period self |} w
  = Ok ((λ m, a * m)%Qc <$> ma).
Proof.
  intros Hw Hma.
  rewrite moving_average_means in Hma by lia. injection Hma as <-.
  rewrite moving_average_means
    by (cbn [data]; unfold py_len in *; rewrite length_fmap; lia).
  cbn [data]. unfold py_len. rewrite length_fmap. f_equal.
  rewrite <-list_fmap_compose. apply Forall_fmap_ext, Forall_forall.
  intros i Hi%elem_of_seqZ. simpl. unfold py_len in *.
  rewrite observations_fmap by lia. apply mean_scale_l.
Qed.

(** X17. The forecast follows the unit of the observations: if the forecast
    of a series is returned, the forecast of the series multiplied by a
    constant [a <> 0] is that forecast multiplied by [a]. *)
Theorem forecast_scale (self : SimpleTimeSeries) (a : Qc) (periods : Z)
    forecast :
  a ≠ 0%Qc →
  forecast_next_periods self periods = Ok forecast →
  forecast_next_periods
    {| data := (λ x, a * x)%Qc <$> data self;
       seasonal_period := seasonal_period self |} periods
  = Ok ((λ y, a * y)%Qc <$> forecast).
Proof.
  intros Ha Hok.
  destruct (forecast_ok_inv self periods forecast Hok)
    as (Hs & HN & ma & first & lst & factors & Hma & Hfirst & Hlast & Hfac).
  rewrite (forecast_next_periods_spec self periods ma factors first lst)
    in Hok by done.
  injection Hok as <-.
  rewrite (forecast_next_periods_spec _ periods ((λ m, a * m)%Qc <$> ma)
             factors (a * first)%Qc (a * lst)%Qc).
  - cbn [data seasonal_period]. f_equal. rewrite <-list_fmap_compose.
    apply list_fmap_ext. intros _ i _. simpl.
    unfold py_len in *. rewrite !length_fmap.
    rewrite observations_fmap by lia. rewrite mean_scale_l.
    unfold Qcdiv. ring.
  - done.
  - cbn [data seasonal_period]. unfold py_len in *. rewrite length_fmap. lia.
  - cbn [seasonal_period]. apply moving_average_scale; [lia|done].
  - by rewrite list_lookup_fmap, Hfirst.
  - by rewrite fmap_last, Hlast.
  - rewrite seasonal_factors_scale; [done|done|lia].
Qed.

Lemma forecast_scale_witness :
  let self := {| data := Qc_of_Z <$> [1; 3; 1; 3]; seasonal_period := 2 |} in
  forecast_next_periods
    {| data := (λ x, Qc_of_Z 5 * x)%Qc <$> data self;
       seasonal_period := seasonal_period self |} 4
  = Ok ((λ y, Qc_of_Z 5 * y)%Qc <$> (Qc_of_Z <$> [1; 3; 1; 3])).
Proof.
  intros self. apply (forecast_scale self); [|by_compute].
  intros H. apply (bool_decide_pack _) in H. vm_compute in H. exact H.
Defined.

(** *** Purely seasonal series *)

Lemma length_cycles m p : length (cycles m p) = (m * length p)%nat.
Proof. induction m as [|m IH]; simpl; [done|]. rewrite length_app. lia. Qed.

Lemma lookup_cycles m p (i : nat) :
  (i < m * length p)%nat → cycles m p !! i = p !! (i `mod` length p)%nat.
Proof.
  revert i. induction m as [|m IH]; intros i Hi; simpl in *; [lia|].
  destruct (decide (i < length p)%nat) as [Hlt|Hge].
  - by rewrite lookup_app_l, Nat.mod_small.
  - rewrite lookup_app_r, IH by lia. f_equal.
    replace i with (i - length p + 1 * length p)%nat at 2 by lia.
    by rewrite Nat.Div0.mod_add.
Qed.

Lemma nth_cycles m p (i : nat) :
  (i < m * length p)%nat →
  nth i (cycles m p) 0%Qc = nth (i `mod` length p) p 0%Qc.
Proof. intros Hi. by rewrite !nth_lookup, lookup_cycles. Qed.

(** A window of one full cycle always sums to the sum of the cycle. *)
Lemma total_window_cycles m p (i : nat) :
  (i + length p ≤ m * length p)%nat →
  total (observations (cycles m p) i (length p)) = total p.
Proof.
  induction i as [|i IH]; intros Hi.
  - rewrite <-take_drop_observations by (rewrite length_cycles; lia).
    rewrite drop_0. destruct m as [|m]; cbn [cycles].
    + destruct p; [done|simpl in Hi; lia].
    + by rewrite take_app_length.
  - destruct (length p) as [|s'] eqn:Hs.
    { destruct p; [done|simpl in Hs; lia]. }
    rewrite total_observations_snoc.
    rewrite <-IH, total_observations_cons by lia.
    rewrite !nth_cycles by (rewrite Hs; lia). rewrite Hs.
    replace (S i + s')%nat with (i + 1 * S s')%nat by lia.
    rewrite Nat.Div0.mod_add. ring.
Qed.

Lemma obs_at_elem_index s k l x :
  ∀ i, x ∈ obs_at s k i l →
       ∃ j : nat, l !! j = Some x ∧ (i + Z.of_nat j) `mod` s = k.
Proof.
  induction l as [|y l IH]; intros i; simpl; [by intros ?%elem_of_nil|].
  case_decide as Hk.
  - intros [->|Hin]%elem_of_cons.
    + exists 0%nat. split; [done|]. by rewrite Z.add_0_r.
    + destruct (IH _ Hin) as (j & Hj & Hmod). exists (S j).
      split; [done|]. rewrite <-Hmod. f_equal. lia.
  - intros Hin. destruct (IH _ Hin) as (j & Hj & Hmod). exists (S j).
    split; [done|]. rewrite <-Hmod. f_equal. lia.
Qed.

Lemma position_factor_cycles m p (k : nat) :
  (1 ≤ m)%nat → (k < length p)%nat →
  position_factor (py_len p) (cycles m p) (Z.of_nat k) = nth k p 0%Qc.
Proof.
  intros Hm Hk. unfold position_factor.
  set (obs := obs_at (py_len p) (Z.of_nat k) 0 (cycles m p)).
  assert (obs ≠ []) as Hne.
  { apply (obs_at_cons _ _ _ 0 (Z.of_nat k)).
    - unfold py_len. rewrite length_cycles. nia.
    - apply Z.mod_small. unfold py_len. lia. }
  rewrite decide_False by done.
  rewrite (all_equal_replicate (nth k p 0%Qc) obs).
  - apply mean_replicate. destruct obs; [done|simpl; lia].
  - intros x (j & Hj & Hmod)%obs_at_elem_index.
    pose proof (lookup_lt_Some _ _ _ Hj) as Hlt.
    rewrite length_cycles in Hlt.
    rewrite lookup_cycles in Hj by done.
    rewrite Z.add_0_l in Hmod. unfold py_len in Hmod.
    rewrite <-Nat2Z.inj_mod in Hmod. apply Nat2Z.inj in Hmod.
    by rewrite nth_lookup, <-Hmod, Hj.
Qed.

Lemma raw_factors_cycles m p :
  (1 ≤ m)%nat →
  position_factor (py_len p) (cycles m p) <$> seqZ 0 (py_len p) = p.
Proof.
  intros Hm. apply list_eq. intros k. rewrite list_lookup_fmap.
  destruct (decide (k < length p)%nat) as [Hk|Hk].
  - rewrite lookup_seqZ_lt by (unfold py_len; lia).
    change (Some (position_factor (py_len p) (cycles m p) (0 + Z.of_nat k))
            = p !! k).
    rewrite Z.add_0_l, position_factor_cycles by done.
    rewrite nth_lookup.
    by destruct (lookup_lt_is_Some_2 p k Hk) as [x ->].
  - rewrite lookup_seqZ_ge by (unfold py_len; lia). symmetry.
    apply lookup_ge_None. lia.
Qed.

Lemma mean_window_cycles m p (i : nat) :
  (i + length p ≤ m * length p)%nat →
  mean (observations (cycles m p) i (length p)) = mean p.
Proof.
  intros Hi. unfold mean, py_len.
  by rewrite total_window_cycles, observations_length.
Qed.

(** X18. A purely seasonal series is forecast as itself: for a series made
    of at least two repetitions of one cycle [p] whose values do not sum to
    zero, and the period set to the length of [p], step [i] of the forecast
    is the value of the cycle at position [i mod s]. *)
Theorem forecast_periodic (p : list Qc) (m : nat) (periods : Z) :
  (2 ≤ m)%nat → total p ≠ 0%Qc →
  forecast_next_periods
    {| data := cycles m p; seasonal_period := py_len p |} periods
  = Ok ((λ i, nth (Z.to_nat (i `mod` py_len p)) p 0%Qc) <$> py_range periods).
Proof.
  intros Hm Ht.
  assert (p ≠ []) as Hp by (intros ->; by apply Ht).
  assert (1 ≤ length p)%nat as Hs by (destruct p; [done|simpl; lia]).
  assert (mean p ≠ 0%Qc) as Hmean.
  { unfold mean. intros H0. apply Ht.
    rewrite <-(Qcmult_div_r (total p) (Qc_of_Z (py_len p))), H0; [ring|].
    apply Qc_of_Z_ne_0. unfold py_len. lia. }
  set (self := {| data := cycles m p; seasonal_period := py_len p |}).
  assert (py_len (data self) = Z.of_nat m * py_len p) as HN.
  { unfold py_len. simpl. rewrite length_cycles. lia. }
  assert (calculate_moving_average self (py_len p)
            = Ok (replicate (Z.to_nat (py_len (data self) - py_len p + 1))
                    (mean p))) as Hma.
  { rewrite moving_average_means by (unfold py_len in *; nia).
    f_equal. unfold py_range.
    rewrite (fmap_all_equal _ (mean p)), length_seqZ; [done|].
    intros i Hi%elem_of_seqZ. simpl. unfold py_len at 1.
    rewrite Nat2Z.id. apply mean_window_cycles. unfold py_len in *. nia. }
  assert (calculate_seasonal_factors self
            = Ok ((λ f, f / mean p)%Qc <$> p)) as Hfac.
  { rewrite calculate_seasonal_factors_spec by (simpl; unfold py_len; lia).
    cbv zeta. cbn [data seasonal_period self].
    rewrite raw_factors_cycles by lia. by rewrite decide_False. }
  assert (1 ≤ seasonal_period self) as Hs1 by (simpl; unfold py_len; lia).
  assert (seasonal_period self * 2 ≤ py_len (data self)) as HN2
    by (rewrite HN; simpl; unfold py_len; nia).
  rewrite (forecast_next_periods_spec self periods
             (replicate (Z.to_nat (py_len (data self) - py_len p + 1))
                (mean p))
             ((λ f, f / mean p)%Qc <$> p) (mean p) (mean p) Hs1 HN2 Hma).
  - f_equal. apply list_fmap_ext. intros _ i _.
    cbn [seasonal_period self]. rewrite HN.
    rewrite (Z.add_comm _ i), Z.mod_add by (unfold py_len; lia).
    pose proof (Z.mod_pos_bound i (py_len p) ltac:(unfold py_len; lia)) as Hi.
    rewrite list_lookup_fmap.
    destruct (lookup_lt_is_Some_2 p (Z.to_nat (i `mod` py_len p)))
      as [x Hx]; [unfold py_len in *; lia|].
    rewrite nth_lookup, Hx. simpl.
    replace (Z.of_nat m * py_len p - py_len p)
      with (Z.of_nat ((m - 1) * length p)) by (unfold py_len; nia).
    unfold py_len at 1 2. rewrite !Nat2Z.id.
    rewrite mean_window_cycles by nia.
    trans (mean p * (x / mean p))%Qc; [unfold Qcdiv; ring|by field].
  - apply lookup_replicate_2. unfold py_len in *. nia.
  - rewrite last_lookup, length_replicate. apply lookup_replicate_2.
    unfold py_len in *. nia.
  - done.
Qed.

Lemma forecast_periodic_witness :
  forecast_next_periods
    {| data := cycles 2 (Qc_of_Z <$> [4; 6; 8]);
       seasonal_period := py_len (Qc_of_Z <$> [4; 6; 8]) |} 5
  = Ok ((λ i, nth (Z.to_nat (i `mod` py_len (Qc_of_Z <$> [4; 6; 8])))
                (Qc_of_Z <$> [4; 6; 8]) 0%Qc) <$> py_range 5).
Proof.
  apply (forecast_periodic (Qc_of_Z <$> [4; 6; 8]) 2 5); [lia|].
  intros H. apply (bool_decide_pack _) in H. vm_compute in H. exact H.
Defined.

(** *** Period 1 *)

Lemma mean_singleton (x : Qc) : mean [x] = x.
Proof.
  unfold mean. change (py_len [x]) with 1. rewrite Z2Qc_inj_1.
  cbn [total foldr]. by field.
Qed.

Lemma obs_at_period_one l : ∀ i, obs_at 1 0 i l = l.
Proof.
  induction l as [|x l IH]; intros i; simpl; [done|].
  rewrite decide_True by apply Z.mod_1_r. by rewrite IH.
Qed.

(** X19. With the period 1 there is no seasonal pattern left and the
    forecast is a straight line: for a series of at least two observations
    that do not sum to zero, step [i] of the forecast is
    [last + (last - first) / N * (i+1)], from the first and the last
    observation. *)
Theorem forecast_period_one (d : list Qc) (first lst : Qc) (periods : Z) :
  2 ≤ py_len d → total d ≠ 0%Qc →
  d !! 0%nat = Some first → last d = Some lst →
  forecast_next_periods {| data := d; seasonal_period := 1 |} periods
  = Ok ((λ i, lst + (lst - first) / Qc_of_Z (py_len d) * Qc_of_Z (i + 1))%Qc
          <$> py_range periods).
Proof.
  intros HN Ht Hfirst Hlast.
  set (self := {| data := d; seasonal_period := 1 |}).
  assert (Qc_of_Z (py_len d) ≠ 0%Qc) as Hn by (apply Qc_of_Z_ne_0; lia).
  assert (mean d ≠ 0%Qc) as Hmean.
  { unfold mean. intros H0. apply Ht.
    rewrite <-(Qcmult_div_r (total d) _ Hn), H0. ring. }
  assert (d ≠ []) as Hd by (intros ->; by apply Ht).
  assert (calculate_seasonal_factors self = Ok [1%Qc]) as Hfac.
  { rewrite calculate_seasonal_factors_spec by (simpl; lia).
    cbv zeta. cbn [data seasonal_period self].
    change (seqZ 0 1) with [0]. rewrite !fmap_cons, !fmap_nil.
    unfold position_factor. rewrite obs_at_period_one.
    rewrite (decide_False (P := d = [])) by done.
    assert (mean [mean d] = mean d) as ->.
    { apply mean_singleton. }
    rewrite decide_False by done. do 2 f_equal. by field. }
  rewrite (forecast_next_periods_spec self periods d [1%Qc] first lst).
  - f_equal. apply list_fmap_ext. intros _ i _.
    cbn [data seasonal_period self]. rewrite Z.mod_1_r. simpl.
    change (Z.to_nat 1) with 1%nat.
    assert (mean (observations d (Z.to_nat (py_len d - 1)) 1) = lst) as ->.
    { rewrite last_lookup in Hlast. unfold py_len.
      replace (Z.to_nat (Z.of_nat (length d) - 1)) with (pred (length d))
        by lia.
      change (observations d (pred (length d)) 1)
        with [nth (pred (length d)) d 0%Qc].
      rewrite mean_singleton, nth_lookup, Hlast. done. }
    ring.
  - simpl. lia.
  - simpl. lia.
  - apply moving_average_identity.
  - done.
  - done.
  - done.
Qed.

Lemma forecast_period_one_witness :
  let d := Qc_of_Z <$> [2; 5; 8] in
  forecast_next_periods {| data := d; seasonal_period := 1 |} 2
  = Ok ((λ i, Qc_of_Z 8 + (Qc_of_Z 8 - Qc_of_Z 2) / Qc_of_Z (py_len d)
                          * Qc_of_Z (i + 1))%Qc
          <$> py_range 2).
Proof.
  intros d. apply (forecast_period_one d); [| |done|done].
  - unfold py_len. simpl. lia.
  - intros H. apply (bool_decide_pack _) in H. vm_compute in H. exact H.
Defined.

(** *** Flat series and the script *)

(** X20. A flat series of a non-zero constant [c] with at least two full
    cycles is forecast as [c] at every step, whatever the horizon. *)
Theorem forecast_flat (c : Qc) (n : nat) (s periods : Z) :
  c ≠ 0%Qc → 1 ≤ s → s * 2 ≤ Z.of_nat n →
  forecast_next_periods {| data := replicate n c; seasonal_period := s |}
    periods = Ok (replicate (Z.to_nat periods) c).
Proof. apply forecast_flat_nonzero. Qed.

Lemma forecast_flat_witness :
  forecast_next_periods
    {| data := replicate 5 (Qc_of_Z 7); seasonal_period := 2 |} 3
  = Ok (replicate (Z.to_nat 3) (Qc_of_Z 7)).
Proof.
  apply (forecast_flat (Qc_of_Z 7) 5 2 3); [|lia|lia].
  intros H. apply (bool_decide_pack _) in H. vm_compute in H. exact H.
Defined.

(** X21. The script ends with the [ValueError] of the guard before it
    prints anything: its series has 18 observations and the period of a
    new object is 12. *)
Theorem main_raises_value_error (period_line : Z → Qc → string) :
  main period_line = Raise (ValueError not_enough).
Proof. unfold main. by rewrite main_raises. Qed.

(** *** Signs *)

Lemma Qcle_0_minus (x y : Qc) : (x ≤ y)%Qc → (0 ≤ y - x)%Qc.
Proof.
  intros Hle. apply (Qcplus_le_mono_r _ _ x).
  rewrite Qcplus_0_l. by replace (y - x + x)%Qc with y by ring.
Qed.

Lemma normalized_nonneg (raw : list Qc) :
  Forall (λ x, 0 ≤ x)%Qc raw → mean raw ≠ 0%Qc →
  Forall (λ x, 0 ≤ x)%Qc ((λ f, f / mean raw)%Qc <$> raw).
Proof.
  intros Hraw Hm. pose proof (mean_pos raw Hraw Hm) as Hpos.
  apply Forall_fmap. eapply Forall_impl; [done|].
  intros f Hf. simpl. by apply Qcdiv_nonneg.
Qed.

(** X22. Observations that are never negative and a trend that does not
    fall (the moving average ends at least as high as it starts) give a
    forecast that is never negative. *)
Theorem forecast_nonneg (self : SimpleTimeSeries) (periods : Z) forecast ma
    (first lst : Qc) :
  Forall (λ x, 0 ≤ x)%Qc (data self) →
  forecast_next_periods self periods = Ok forecast →
  calculate_moving_average self (seasonal_period self) = Ok ma →
  ma !! 0%nat = Some first → last ma = Some lst → (first ≤ lst)%Qc →
  Forall (λ y, 0 ≤ y)%Qc forecast.
Proof.
  intros Hd Hok Hma Hfirst Hlast Hle.
  destruct (forecast_ok_inv self periods forecast Hok)
    as (Hs & HN & ma' & first' & lst' & factors & Hma' & _ & _ & Hfac).
  rewrite (forecast_next_periods_spec self periods ma factors first lst)
    in Hok by done.
  injection Hok as <-.
  apply Forall_fmap, Forall_forall. intros i Hi%elem_of_seqZ. simpl.
  apply Qcmult_nonneg_nonneg; [apply Qcplus_nonneg_nonneg|].
  - apply mean_nonneg. unfold py_len in *.
    rewrite <-take_drop_observations by lia.
    by apply Forall_take, Forall_drop.
  - apply Qcmult_nonneg_nonneg.
    + apply Qcdiv_nonneg; [by apply Qcle_0_minus|].
      apply Qc_of_Z_pos. pose proof (lookup_lt_Some _ _ _ Hfirst).
      unfold py_len. lia.
    + apply Qclt_le_weak, Qc_of_Z_pos. lia.
  - rewrite calculate_seasonal_factors_spec in Hfac by done.
    case_decide as Hm; [done|]. injection Hfac as <-.
    match goal with
    | |- context [default _ (?l !! ?k)] => destruct (l !! k) as [f|] eqn:Hf
    end; simpl; [|done].
    eapply (proj1 (Forall_lookup _ _)); [|exact Hf].
    apply normalized_nonneg; [|done].
    apply Forall_fmap, Forall_forall. intros k _.
    by apply position_factor_nonneg.
Qed.

Lemma forecast_nonneg_witness :
  Forall (λ y, 0 ≤ y)%Qc
    [Qc_of_Z 2; Qc_of_Z 77 / Qc_of_Z 15; Qc_of_Z 12 / Qc_of_Z 5]%Qc.
Proof.
  apply (forecast_nonneg
           {| data := Qc_of_Z <$> [1; 3; 2; 4]; seasonal_period := 2 |} 3 _
           [Qc_of_Z 2; Qc_of_Z 5 / Qc_of_Z 2; Qc_of_Z 3]%Qc
           (Qc_of_Z 2) (Qc_of_Z 3)).
  - simpl. repeat constructor; vm_compute; discriminate.
  - by_compute.
  - by_compute.
  - done.
  - done.
  - vm_compute. discriminate.
Defined.

(** A falling trend does take the forecast below zero, however positive the
    observations. *)
Example forecast_negative_values :
  forecast_next_periods
    {| data := Qc_of_Z <$> [9; 9; 1; 1]; seasonal_period := 2 |} 2
  = Ok [Qc_of_Z (-5) / Qc_of_Z 3; Qc_of_Z (-13) / Qc_of_Z 3]%Qc.
Proof. by_compute. Qed.

(** X23. A flat series of a non-zero constant that covers every cycle
    position ([1 <= s <= N]) has no seasonality: all [s] factors are 1. *)
Theorem seasonal_factors_flat_series (c : Qc) (n : nat) (s : Z) :
  c ≠ 0%Qc → 1 ≤ s → s ≤ Z.of_nat n →
  calculate_seasonal_factors {| data := replicate n c; seasonal_period := s |}
    = Ok (replicate (Z.to_nat s) 1%Qc).
Proof. apply seasonal_factors_flat. Qed.

Lemma seasonal_factors_flat_series_witness :
  calculate_seasonal_factors
    {| data := replicate 5 (Qc_of_Z 7); seasonal_period := 2 |}
  = Ok (replicate (Z.to_nat 2) 1%Qc).
Proof.
  apply (seasonal_factors_flat_series (Qc_of_Z 7) 5 2); [|lia|lia].
  intros H. apply (bool_decide_pack _) in H. vm_compute in H. exact H.
Defined.
